(** * kuiper-admin: the in-process TTL cache ([internal/cache/cache.go])

    The cache maps string keys to values with an expiration instant.  This
    development embeds the five operations of the package ([Set], [Get],
    [Delete], [Clear] and one firing of the [cleanup] ticker) as functions
    on the entry table, the locking discipline of the package as an
    interleaving machine over goroutines and a [sync.RWMutex], and the
    one user of the cache, the paginated product listing of
    [internal/models/product.go]. *)

From stdpp Require Import gmap strings list fin_maps.
From Stdlib Require Import ZArith Lia DecimalString DecimalZ.

Local Open Scope Z_scope.

(** ** Go's [time] package, as far as the cache uses it

    A [time.Time] is an instant on one timeline, counted in nanoseconds; a
    [time.Duration] is a signed count of nanoseconds. *)

Module GoTime.

Abbreviation Time := Z (only parsing).
Abbreviation Duration := Z (only parsing).

(** [t.Add(d)] *)
Definition Add (t : Time) (d : Duration) : Time := t + d.

(** [t.After(u)]: t is strictly later than u. *)
Definition After (t u : Time) : bool := bool_decide (u < t).

(** 5 * time.Minute *)
Definition Minute : Duration := 60 * 1000000000.

End GoTime.

Import GoTime.

(** ** The data model *)

Section Model.

(** The dynamic type carried by an [interface{}]. *)
Context {V : Type}.

(** [interface{}]: either the nil interface or a boxed value. *)
Inductive any : Type :=
| nil_any : any
| box : V → any.

(** [type CacheItem struct { Value interface{}; Expiration time.Time }] *)
Record CacheItem : Type := mkItem {
  Value : any;
  Expiration : Time;
}.

(** [type Cache struct { items map[string]CacheItem; mutex sync.RWMutex }].
    The mutex lives in the interleaving machine below; the functions of
    this section are the bodies run while it is held. *)
Record Cache : Type := mkCache {
  items : gmap string CacheItem;
}.

(** [New]: [make(map[string]CacheItem)]. *)
Definition New : Cache := {| items := ∅ |}.

(** [Set] ([Set_] here, [Set] being reserved); [now] is the reading of
    [time.Now()] inside the call. *)
Definition Set_ (key : string) (value : any) (ttl : Duration) (now : Time)
    (c : Cache) : Cache :=
  {| items := <[key := {| Value := value; Expiration := Add now ttl |}]> (items c) |}.

(** [Get]: the returned pair, and the cache after the call. *)
Definition Get (key : string) (now : Time) (c : Cache) : (any * bool) * Cache :=
  match items c !! key with
  | None => ((nil_any, false), c)
  | Some item =>
      if After now (Expiration item)
      then ((nil_any, false), {| items := delete key (items c) |})
      else ((Value item, true), c)
  end.

(** [Delete] *)
Definition Delete (key : string) (c : Cache) : Cache :=
  {| items := delete key (items c) |}.

(** [Clear]: a fresh map replaces the old one. *)
Definition Clear (c : Cache) : Cache :=
  {| items := ∅ |}.

(** The body of the [range] loop of [cleanup], for one (key, item). *)
Definition cleanup_visit (now : Time) (m : gmap string CacheItem)
    (e : string * CacheItem) : gmap string CacheItem :=
  if After now (Expiration e.2) then delete e.1 m else m.

(** [for key, item := range c.items { ... }] over the pairs in the order
    [order] in which the runtime yields them. *)
Definition cleanup_range (now : Time) (order : list (string * CacheItem))
    (m : gmap string CacheItem) : gmap string CacheItem :=
  foldl (cleanup_visit now) m order.

(** An order in which [range] may yield the pairs of a map: Go leaves it
    unspecified, every pair comes once. *)
Definition range_order (m : gmap string CacheItem)
    (order : list (string * CacheItem)) : Prop :=
  order ≡ₚ map_to_list m.

(** One firing of the ticker in [cleanup]: the locked block. *)
Definition cleanup_tick (now : Time) (order : list (string * CacheItem))
    (c : Cache) : Cache :=
  {| items := cleanup_range now order (items c) |}.

(** A request to [Set], as a caller issues it at the instant [sr_now]. *)
Record set_req : Type := mkSetReq {
  sr_key : string;
  sr_value : any;
  sr_ttl : Duration;
  sr_now : Time;
}.

Definition apply_set (c : Cache) (r : set_req) : Cache :=
  Set_ (sr_key r) (sr_value r) (sr_ttl r) (sr_now r) c.

(** A run of [Set] calls, first to last. *)
Definition Set_all (rs : list set_req) (c : Cache) : Cache :=
  foldl apply_set c rs.

End Model.

Arguments any : clear implicits.
Arguments CacheItem : clear implicits.
Arguments Cache : clear implicits.
Arguments set_req : clear implicits.


(** ** The locking discipline: goroutines interleaved over one cache

    Every method takes [c.mutex] on entry and releases it by a deferred
    call on return.  A goroutine is at one program point of the method it
    runs; one step of the machine lets one goroutine run up to its next
    access to the mutex, the table or the clock. *)

Section Machine.

Context {V : Type}.

(** [sync.RWMutex]: held by one writer, or by a number of readers. *)
Record RWMutex : Type := mkMutex {
  writer : bool;
  readers : nat;
}.

Definition free_mutex : RWMutex := {| writer := false; readers := 0%nat |}.

(** [Lock] goes through when nobody holds the mutex. *)
Definition Lock (mu : RWMutex) : option RWMutex :=
  if writer mu then None
  else match readers mu with
       | O => Some {| writer := true; readers := 0%nat |}
       | S _ => None
       end.

Definition Unlock (mu : RWMutex) : RWMutex :=
  {| writer := false; readers := readers mu |}.

(** [RLock] goes through when no writer holds the mutex. *)
Definition RLock (mu : RWMutex) : option RWMutex :=
  if writer mu then None
  else Some {| writer := false; readers := S (readers mu) |}.

Definition RUnlock (mu : RWMutex) : RWMutex :=
  {| writer := writer mu; readers := Nat.pred (readers mu) |}.

(** The calls a goroutine makes; [CallTick] is one firing of the ticker
    in the [cleanup] goroutine. *)
Inductive call : Type :=
| CallSet (key : string) (value : any V) (ttl : Duration)
| CallGet (key : string)
| CallDelete (key : string)
| CallClear
| CallTick.

(** Program points.  The comment gives the statement run next. *)
Inductive point : Type :=
| AtCall (c : call)                       (* c.mutex.Lock() / RLock() *)
| SetStore (key : string) (value : any V) (ttl : Duration)
                                          (* c.items[key] = CacheItem{..} *)
| GetLoad (key : string)                  (* item, exists := c.items[key] *)
| GetCheck (key : string) (item : CacheItem V)
                                          (* time.Now().After(item.Expiration) *)
| GetExpire (key : string)                (* delete(c.items, key) *)
| GetReturn (r : any V * bool)            (* deferred c.mutex.RUnlock() *)
| DeleteEntry (key : string)              (* delete(c.items, key) *)
| ClearTable                              (* c.items = make(..) *)
| TickNow                                 (* now := time.Now(); range c.items *)
| TickVisit (now : Time) (pending : list (string * CacheItem V))
                                          (* next iteration of the range *)
| WUnlock                                 (* c.mutex.Unlock() *)
| Returned (r : option (any V * bool)).

Record state : Type := mkState {
  mutex : RWMutex;
  table : Cache V;
  clock : Time;
  procs : list point;
}.

(** One step of a goroutine at point [p]; [None] when it is blocked on
    the mutex or has returned. *)
Definition step_point (p : point) (mu : RWMutex) (c : Cache V) (now : Time)
    : option (point * RWMutex * Cache V) :=
  match p with
  | AtCall (CallSet key value ttl) =>
      mu' ← Lock mu; Some (SetStore key value ttl, mu', c)
  | AtCall (CallGet key) =>
      mu' ← RLock mu; Some (GetLoad key, mu', c)
  | AtCall (CallDelete key) =>
      mu' ← Lock mu; Some (DeleteEntry key, mu', c)
  | AtCall CallClear =>
      mu' ← Lock mu; Some (ClearTable, mu', c)
  | AtCall CallTick =>
      mu' ← Lock mu; Some (TickNow, mu', c)
  | SetStore key value ttl =>
      Some (WUnlock, mu, Set_ key value ttl now c)
  | GetLoad key =>
      match items c !! key with
      | None => Some (GetReturn (nil_any, false), mu, c)
      | Some item => Some (GetCheck key item, mu, c)
      end
  | GetCheck key item =>
      if After now (Expiration item)
      then Some (GetExpire key, mu, c)
      else Some (GetReturn (Value item, true), mu, c)
  | GetExpire key =>
      Some (GetReturn (nil_any, false), mu, {| items := delete key (items c) |})
  | GetReturn r =>
      Some (Returned (Some r), RUnlock mu, c)
  | DeleteEntry key =>
      Some (WUnlock, mu, Delete key c)
  | ClearTable =>
      Some (WUnlock, mu, Clear c)
  | TickNow =>
      Some (TickVisit now (map_to_list (items c)), mu, c)
  | TickVisit now' [] =>
      Some (WUnlock, mu, c)
  | TickVisit now' (e :: rest) =>
      Some (TickVisit now' rest, mu, {| items := cleanup_visit now' (items c) e |})
  | WUnlock =>
      Some (Returned None, Unlock mu, c)
  | Returned _ => None
  end.

(** What the scheduler and the clock do. *)
Inductive event : Type :=
| Run (i : nat)          (* goroutine i takes its next step *)
| Elapse (d : Duration). (* time passes *)

Definition step (s : state) (ev : event) : option state :=
  match ev with
  | Run i =>
      p ← procs s !! i;
      r ← step_point p (mutex s) (table s) (clock s);
      Some {| mutex := r.1.2; table := r.2; clock := clock s;
              procs := <[i := r.1.1]> (procs s) |}
  | Elapse d =>
      if bool_decide (0 ≤ d)
      then Some {| mutex := mutex s; table := table s;
                   clock := Add (clock s) d; procs := procs s |}
      else None
  end.

Fixpoint run (evs : list event) (s : state) : option state :=
  match evs with
  | [] => Some s
  | ev :: evs' => s' ← step s ev; run evs' s'
  end.

(** The states the machine starts in: nobody holds the mutex and every
    goroutine is about to make a call. *)
Definition is_call (p : point) : bool :=
  match p with AtCall _ => true | _ => false end.

Definition initial (s : state) : Prop :=
  mutex s = free_mutex ∧ forallb is_call (procs s) = true.

Definition reachable (s0 s : state) : Prop :=
  ∃ evs, run evs s0 = Some s.

(** The goroutine's next step writes the entry table. *)
Definition mutates (p : point) : bool :=
  match p with
  | SetStore _ _ _ | GetExpire _ | DeleteEntry _ | ClearTable => true
  | TickVisit now (e :: _) => After now (Expiration e.2)
  | _ => false
  end.

(** The goroutine is between [Lock] and [Unlock]. *)
Definition holds_write (p : point) : bool :=
  match p with
  | SetStore _ _ _ | DeleteEntry _ | ClearTable | TickNow | TickVisit _ _
  | WUnlock => true
  | _ => false
  end.

(** The goroutine is between [RLock] and [RUnlock]. *)
Definition holds_read (p : point) : bool :=
  match p with
  | GetLoad _ | GetCheck _ _ | GetExpire _ | GetReturn _ => true
  | _ => false
  end.

(** The goroutine is inside a method, reading or writing the table. *)
Definition inside (p : point) : bool := holds_write p || holds_read p.

(** No goroutine is inside a method while another one writes the table. *)
Definition exclusive (s : state) : Prop :=
  ∀ i j p q, i ≠ j →
    procs s !! i = Some p → procs s !! j = Some q →
    mutates p = true → inside q = false.

(** The same, for the goroutines that took [Lock]. *)
Definition writer_exclusive (s : state) : Prop :=
  ∀ i j p q, i ≠ j →
    procs s !! i = Some p → procs s !! j = Some q →
    holds_write p = true → inside q = false.

Fixpoint count_if (f : point → bool) (l : list point) : nat :=
  match l with
  | [] => 0%nat
  | p :: l' => ((if f p then 1 else 0) + count_if f l')%nat
  end.

(** The mutex records who is inside. *)
Definition mutex_inv (s : state) : Prop :=
  count_if holds_write (procs s) = (if writer (mutex s) then 1 else 0)%nat
  ∧ count_if holds_read (procs s) = readers (mutex s)
  ∧ (writer (mutex s) = true → readers (mutex s) = 0%nat).

(** A goroutine run alone until it returns or blocks. *)
Fixpoint run_alone (fuel : nat) (i : nat) (s : state) : state :=
  match fuel with
  | O => s
  | S fuel' =>
      match step s (Run i) with
      | Some s' => run_alone fuel' i s'
      | None => s
      end
  end.

(** One goroutine, about to make the call [cl], and nobody else. *)
Definition alone (c : Cache V) (now : Time) (cl : call) : state :=
  {| mutex := free_mutex; table := c; clock := now; procs := [AtCall cl] |}.

(** The state a lone goroutine leaves behind when it has returned [r]. *)
Definition finished (c : Cache V) (now : Time) (r : option (any V * bool)) : state :=
  {| mutex := free_mutex; table := c; clock := now; procs := [Returned r] |}.

End Machine.

Arguments call : clear implicits.
Arguments point : clear implicits.
Arguments state : clear implicits.

(** ** The caller of the cache: the paginated product listing
    ([internal/models/product.go])

    [GetProductsPaginated] looks its answer up in [db.Cache] under a key
    derived from the query, and on a miss asks the connection pool and
    stores what it built for five minutes. *)

(** What the listing takes from outside the repository: the column types
    it only carries around, and [crypto/md5] printed with ["%x"]. *)
Class Externals : Type := {
  float64 : Type;
  Timestamp : Type;        (* pgtype.Timestamp *)
  Category : Type;         (* models.Category, never filled in here *)
  ProductRef : Type;       (* the *Product back pointer of a variant *)
  md5_hex : string → string;
}.

(** A Go call that returns [(T, error)]; the error is its message. *)
Inductive result (A : Type) : Type :=
| Ok (a : A)
| Error (msg : string).

Arguments Ok {A} a.
Arguments Error {A} msg.

(** An argument handed to the pool for a [$n] placeholder. *)
Inductive sqlarg : Type :=
| ArgString (s : string)
| ArgInt (n : Z).

(** [int] and [int64]: 64 bits, two's complement. *)
Definition wrap64 (z : Z) : Z := (z + 2 ^ 63) mod 2 ^ 64 - 2 ^ 63.

(** ["%d"] *)
Definition itoa (z : Z) : string := NilZero.string_of_int (Z.to_int z).

Definition colon : Ascii.ascii := Ascii.ascii_of_nat 58.

Definition NL : string := String (Ascii.ascii_of_nat 10) "".
Definition TAB : string := String (Ascii.ascii_of_nat 9) "".

(** A line of a query literal: a line break, two tabs, the text. *)
Definition sql_line (text : string) : string := NL +:+ TAB +:+ TAB +:+ text.

Section Products.

Context `{Externals}.

(** [type ProductVariant struct] *)
Record ProductVariant : Type := mkVariant {
  v_ID : string;
  v_ProductID : string;
  v_Name : string;
  v_Price : float64;
  v_StockCount : Z;
  v_IsAvailable : bool;
  v_Weight : string;
  v_Product : option ProductRef;
}.

(** [type Product struct] *)
Record Product : Type := mkProduct {
  p_ID : string;
  p_CategoryID : option string;
  p_Name : string;
  p_Slug : string;
  p_Description : string;
  p_Price : float64;
  p_ImageURLs : list string;
  p_StockCount : Z;
  p_IsAvailable : bool;
  p_HasVariants : bool;
  p_CreatedAt : Timestamp;
  p_UpdatedAt : Timestamp;
  p_Category : option Category;
  p_Variants : list ProductVariant;
  p_VariantsJSON : string;
}.

(** [type PaginatedResult[T any] struct] *)
Record PaginatedResult (T : Type) : Type := mkPage {
  Data : list T;
  TotalCount : Z;
  Page : Z;
  PageSize : Z;
  TotalPages : Z;
  HasNext : bool;
  HasPrev : bool;
}.

Arguments mkPage {T}.
Arguments Data {T}.
Arguments TotalCount {T}.
Arguments Page {T}.
Arguments PageSize {T}.
Arguments TotalPages {T}.
Arguments HasNext {T}.
Arguments HasPrev {T}.

(** The thirteen columns [rows.Scan] fills for one row; [r_variants] is the
    [[]byte] of the JSONB column, [None] for a nil slice. *)
Record product_row : Type := mkRow {
  r_id : string;
  r_category_id : option string;
  r_name : string;
  r_slug : string;
  r_description : string;
  r_price : float64;
  r_image_urls : list string;
  r_stock_count : Z;
  r_is_available : bool;
  r_has_variants : bool;
  r_created_at : Timestamp;
  r_updated_at : Timestamp;
  r_variants : option string;
}.

(** What [pool.Query] hands back: the rows [rows.Next] yields, each with
    the outcome of its [rows.Scan], and the final [rows.Err()]. *)
Record Rows : Type := mkRows {
  rows_next : list (result product_row);
  rows_err : option string;
}.

(** [db.Pool] at the time of a call: what [QueryRow(..).Scan(&totalCount)]
    and [Query(..)] answer to a query text and its arguments. *)
Record Pool : Type := mkPool {
  QueryRow_count : string → list sqlarg → result Z;
  Query_rows : string → list sqlarg → result Rows;
}.

(** [json.Unmarshal(variantsJSON, &variants)] *)
Context (json_Unmarshal : string → result (list ProductVariant)).

(** The local [key] of [generateCacheKey]. *)
Definition cache_key_text (page pageSize : Z) (categoryID search : string) : string :=
  "products:page=" +:+ itoa page +:+ ":size=" +:+ itoa pageSize
  +:+ ":cat=" +:+ categoryID +:+ ":search=" +:+ search.

(** [generateCacheKey] *)
Definition generateCacheKey (page pageSize : Z) (categoryID search : string) : string :=
  let key := cache_key_text page pageSize categoryID search in
  let hash := md5_hex key in
  "products:" +:+ hash.

(** Lines 79-87: the defaults and the cap on the page size. *)
Definition clamp_page (page : Z) : Z :=
  if bool_decide (page < 1) then 1 else page.

Definition clamp_pageSize (pageSize : Z) : Z :=
  let pageSize := if bool_decide (pageSize < 1) then 20 else pageSize in
  if bool_decide (pageSize > 100) then 100 else pageSize.

(** The state of lines 99-115: [whereConditions], [args], [argIndex]. *)
Record where_state : Type := mkWhere {
  whereConditions : list string;
  args : list sqlarg;
  argIndex : Z;
}.

Definition where_category (categoryID : string) (w : where_state) : where_state :=
  if decide (categoryID = "") then w
  else {| whereConditions :=
            whereConditions w ++ ["p.category_id = $" +:+ itoa (argIndex w)];
          args := args w ++ [ArgString categoryID];
          argIndex := argIndex w + 1 |}.

Definition where_search (search : string) (w : where_state) : where_state :=
  if decide (search = "") then w
  else {| whereConditions :=
            whereConditions w
            ++ ["(LOWER(p.name) ILIKE LOWER($" +:+ itoa (argIndex w)
                +:+ ") OR LOWER(p.description) ILIKE LOWER($"
                +:+ itoa (argIndex w) +:+ "))"];
          args := args w ++ [ArgString ("%" +:+ search +:+ "%")];
          argIndex := argIndex w + 1 |}.

Definition build_where (categoryID search : string) : where_state :=
  where_search search
    (where_category categoryID
       {| whereConditions := []; args := []; argIndex := 1 |}).

(** Lines 117-123: [whereClause]. *)
Definition where_clause (conds : list string) : string :=
  match conds with
  | [] => ""
  | c0 :: rest =>
      foldl (λ clause c, clause +:+ " AND (" +:+ c +:+ ")")
            ("WHERE " +:+ "(" +:+ c0 +:+ ")") rest
  end.

(** [countQuery] *)
Definition count_query (whereClause : string) : string :=
  sql_line ("SELECT COUNT(" +:+ "*)")
  +:+ sql_line "FROM products p"
  +:+ sql_line whereClause
  +:+ NL +:+ TAB.

(** [query] *)
Definition select_query (whereClause : string) (argIndex : Z) : string :=
  sql_line "SELECT p.id, p.category_id, p.name, p.slug, p.description, "
  +:+ sql_line "       p.price, p.image_urls, p.stock_count, p.is_available, p.has_variants,"
  +:+ sql_line "       p.created_at, p.updated_at, p.variants"
  +:+ sql_line "FROM products p"
  +:+ sql_line whereClause
  +:+ sql_line "ORDER BY p.created_at DESC, p.name"
  +:+ sql_line ("LIMIT $" +:+ itoa argIndex +:+ " OFFSET $" +:+ itoa (argIndex + 1))
  +:+ NL +:+ TAB.

(** Lines 184-190: the loop over the parsed variants, for one of them. *)
Definition adopt_variant (productID : string) (v : ProductVariant) : ProductVariant :=
  let name :=
    if bool_decide (v_Weight v ≠ "" ∧ v_Name v = "") then v_Weight v else v_Name v in
  {| v_ID := v_ID v; v_ProductID := productID; v_Name := name;
     v_Price := v_Price v; v_StockCount := v_StockCount v;
     v_IsAvailable := v_IsAvailable v; v_Weight := v_Weight v;
     v_Product := v_Product v |}.

(** Lines 159-195: the body of the loop over the rows, after a [Scan] that
    went through.  A parse error of the variants is logged and the product
    is kept without them. *)
Definition scan_product (row : product_row) : Product :=
  let with_variants (json : string) (variants : list ProductVariant) :=
    {| p_ID := r_id row; p_CategoryID := r_category_id row;
       p_Name := r_name row; p_Slug := r_slug row;
       p_Description := r_description row; p_Price := r_price row;
       p_ImageURLs := r_image_urls row; p_StockCount := r_stock_count row;
       p_IsAvailable := r_is_available row; p_HasVariants := r_has_variants row;
       p_CreatedAt := r_created_at row; p_UpdatedAt := r_updated_at row;
       p_Category := None; p_Variants := variants; p_VariantsJSON := json |} in
  match r_variants row with
  | None => with_variants "" []
  | Some variantsJSON =>
      if bool_decide (variantsJSON ≠ "[]" ∧ variantsJSON ≠ "null")
      then match json_Unmarshal variantsJSON with
           | Error _ => with_variants variantsJSON []
           | Ok variants =>
               with_variants variantsJSON (adopt_variant (r_id row) <$> variants)
           end
      else with_variants "" []
  end.

(** [for rows.Next() { ... }]: the first failing [Scan] ends the call. *)
Fixpoint scan_rows (rows : list (result product_row)) (products : list Product)
    : result (list Product) :=
  match rows with
  | [] => Ok products
  | Error err :: _ => Error ("error scanning product row: " +:+ err)
  | Ok row :: rest => scan_rows rest (products ++ [scan_product row])
  end.

(** Lines 203-215: the pagination metadata. *)
Definition page_result (products : list Product) (totalCount page pageSize : Z)
    : PaginatedResult Product :=
  let totalPages :=
    wrap64 (Z.quot (wrap64 (wrap64 (totalCount + pageSize) - 1)) pageSize) in
  {| Data := products; TotalCount := totalCount; Page := page;
     PageSize := pageSize; TotalPages := totalPages;
     HasNext := bool_decide (page < totalPages);
     HasPrev := bool_decide (page > 1) |}.

(** Lines 97-215: the path taken on a cache miss, for a page and a page
    size already clamped. *)
Definition query_page (pool : Pool) (page pageSize : Z) (categoryID search : string)
    : result (PaginatedResult Product) :=
  let offset := wrap64 ((page - 1) * pageSize) in
  let w := build_where categoryID search in
  let whereClause := where_clause (whereConditions w) in
  match QueryRow_count pool (count_query whereClause) (args w) with
  | Error err => Error ("error counting products: " +:+ err)
  | Ok totalCount =>
      match Query_rows pool (select_query whereClause (argIndex w))
                       (args w ++ [ArgInt pageSize; ArgInt offset]) with
      | Error err => Error ("error querying products: " +:+ err)
      | Ok rows =>
          match scan_rows (rows_next rows) [] with
          | Error err => Error err
          | Ok products =>
              match rows_err rows with
              | Some err => Error ("error iterating product rows: " +:+ err)
              | None => Ok (page_result products totalCount page pageSize)
              end
          end
      end
  end.

(** [GetProductsPaginated].  [now_get] and [now_set] are the readings of
    the clock inside [db.Cache.Get] and [db.Cache.Set]; the cache holds
    [*PaginatedResult[Product]] values, so the type assertion on a cached
    value fails on the nil interface only. *)
Definition GetProductsPaginated (pool : Pool) (page pageSize : Z)
    (categoryID search : string) (now_get now_set : Time)
    (c : Cache (PaginatedResult Product))
    : result (PaginatedResult Product) * Cache (PaginatedResult Product) :=
  let page := clamp_page page in
  let pageSize := clamp_pageSize pageSize in
  let cacheKey := generateCacheKey page pageSize categoryID search in
  let got := Get cacheKey now_get c in
  match got.1 with
  | (box cached, true) => (Ok cached, got.2)
  | _ =>
      match query_page pool page pageSize categoryID search with
      | Error err => (Error err, got.2)
      | Ok result =>
          (Ok result, Set_ cacheKey (box result) (5 * Minute) now_set got.2)
      end
  end.

(** [GetAllProducts] *)
Definition GetAllProducts (pool : Pool) (now_get now_set : Time)
    (c : Cache (PaginatedResult Product))
    : result (list Product) * Cache (PaginatedResult Product) :=
  let call := GetProductsPaginated pool 1 1000 "" "" now_get now_set c in
  match call.1 with
  | Error err => (Error err, call.2)
  | Ok result => (Ok (Data result), call.2)
  end.

End Products.

Arguments mkPage {T}.
Arguments Data {T}.
Arguments TotalCount {T}.
Arguments Page {T}.
Arguments PageSize {T}.
Arguments TotalPages {T}.
Arguments HasNext {T}.
Arguments HasPrev {T}.

(** The lookup at the head of [GetProductsPaginated] finds no usable
    value: the key is absent, expired, or holds the nil interface. *)
Definition no_hit {V : Type} (c : Cache V) (key : string) (now : Time) : Prop :=
  ∀ cached, (Get key now c).1 ≠ (box cached, true).





(** Concrete caches and machine states used in the examples below. *)

Definition cache_k10 : Cache Z := Set_ "k" (box 7) 5 5 New.

Definition cache_mixed : Cache Z :=
  Set_ "new" (box 2) 300 20 (Set_ "edge" (box 3) 60 40 (Set_ "old" (box 1) 10 0 New)).

Definition three_sets : list (set_req Z) :=
  [ {| sr_key := "a"; sr_value := box 1; sr_ttl := 300; sr_now := 11 |};
    {| sr_key := "b"; sr_value := box 2; sr_ttl := 300; sr_now := 11 |};
    {| sr_key := "c"; sr_value := nil_any; sr_ttl := 300; sr_now := 12 |} ].

Definition sample_externals : Externals :=
  {| float64 := Z; Timestamp := Z; Category := unit; ProductRef := unit;
     md5_hex := λ text, text |}.

Definition sample_variant : @ProductVariant sample_externals :=
  @mkVariant sample_externals "v1" "" "" 3 4 true "1kg" None.

Definition sample_Unmarshal (json : string)
    : result (list (@ProductVariant sample_externals)) :=
  if decide (json = "[v1]") then Ok [sample_variant] else Error "invalid character".

Definition sample_row (id : string) (variants : option string)
    : @product_row sample_externals :=
  @mkRow sample_externals id None "tea" "tea" "" 3 [] 4 true false 0 0 variants.

(** A pool holding 250 products, of which a query yields two rows. *)
Definition sample_pool : @Pool sample_externals :=
  @mkPool sample_externals
    (λ _ _, Ok 250)
    (λ _ _, Ok (@mkRows sample_externals
                  [Ok (sample_row "p1" (Some "[v1]")); Ok (sample_row "p2" None)]
                  None)).

(** A pool that has gone away. *)
Definition broken_pool : @Pool sample_externals :=
  @mkPool sample_externals
    (λ _ _, Error "connection refused")
    (λ _ _, Error "connection refused").

Definition writer_and_reader : state Z :=
  {| mutex := free_mutex; table := cache_k10; clock := 9;
     procs := [AtCall (CallSet "k" (box 8) 5); AtCall (CallGet "k"); AtCall CallTick] |}.

Definition two_readers : state Z :=
  {| mutex := free_mutex; table := cache_k10; clock := 11;
     procs := [AtCall (CallGet "k"); AtCall (CallGet "k")] |}.

(** ** Properties of the operations *)

Section Properties.

Context {V : Type}.
Implicit Types (c : Cache V) (m : gmap string (CacheItem V)).
Implicit Types (key : string) (item : CacheItem V) (value : any V).
Implicit Types (now : Z) (ttl : Z).

Lemma After_true (t u : Z) : After t u = true ↔ u < t.
Proof. unfold After. apply bool_decide_eq_true. Qed.

Lemma After_false (t u : Z) : After t u = false ↔ t ≤ u.
Proof. unfold After. rewrite bool_decide_eq_false. lia. Qed.

Lemma Get_absent c key now :
  items c !! key = None → Get key now c = ((nil_any, false), c).
Proof. intros Hk. unfold Get. by rewrite Hk. Qed.

Lemma Get_expired c key item now :
  items c !! key = Some item → Expiration item < now →
  Get key now c = ((nil_any, false), Delete key c).
Proof.
  intros Hk Hlt. unfold Get. rewrite Hk.
  apply After_true in Hlt. by rewrite Hlt.
Qed.

Lemma Get_live c key item now :
  items c !! key = Some item → now ≤ Expiration item →
  Get key now c = ((Value item, true), c).
Proof.
  intros Hk Hle. unfold Get. rewrite Hk.
  apply After_false in Hle. by rewrite Hle.
Qed.

Lemma Set_lookup c key value ttl now :
  items (Set_ key value ttl now c) !! key
  = Some {| Value := value; Expiration := now + ttl |}.
Proof. unfold Set_, Add. simpl. apply lookup_insert_eq. Qed.

Lemma Set_lookup_ne c key key' value ttl now :
  key ≠ key' →
  items (Set_ key value ttl now c) !! key' = items c !! key'.
Proof. intros Hne. unfold Set_. simpl. by apply lookup_insert_ne. Qed.

(** The loop of [cleanup] never touches a key it is not handed. *)
Lemma cleanup_range_keep now order m key :
  (∀ item, (key, item) ∈ order → After now (Expiration item) = false) →
  cleanup_range now order m !! key = m !! key.
Proof.
  unfold cleanup_range. revert m.
  induction order as [|[k it] order IH]; intros m Hkeep; [done|].
  simpl. rewrite IH.
  - unfold cleanup_visit; simpl.
    destruct (After now (Expiration it)) eqn:Hexp; [|done].
    destruct (decide (k = key)) as [->|Hne].
    + rewrite (Hkeep it) in Hexp; [done | by left].
    + by apply lookup_delete_ne.
  - intros item Hin. apply Hkeep. by right.
Qed.

Lemma cleanup_range_absent now order m key :
  m !! key = None → cleanup_range now order m !! key = None.
Proof.
  unfold cleanup_range. revert m.
  induction order as [|[k it] order IH]; intros m Hnone; [done|].
  simpl. apply IH. unfold cleanup_visit; simpl.
  destruct (After now (Expiration it)); [|done].
  rewrite lookup_delete. by case_decide.
Qed.

(** It deletes every key it is handed with an expired item. *)
Lemma cleanup_range_drop now order m key item :
  (key, item) ∈ order → After now (Expiration item) = true →
  cleanup_range now order m !! key = None.
Proof.
  unfold cleanup_range. revert m.
  induction order as [|[k it] order IH]; intros m Hin Hexp.
  - by apply not_elem_of_nil in Hin.
  - apply elem_of_cons in Hin as [Heq|Hin].
    + inversion Heq; subst k it. simpl.
      apply cleanup_range_absent.
      unfold cleanup_visit; simpl. rewrite Hexp. apply lookup_delete_eq.
    + simpl. by apply IH.
Qed.

Lemma range_order_elem m order key item :
  range_order m order → ((key, item) ∈ order ↔ m !! key = Some item).
Proof.
  unfold range_order. intros Hperm. rewrite Hperm.
  apply elem_of_map_to_list.
Qed.

(** The table after one firing of the ticker, key by key. *)
Lemma cleanup_tick_lookup c now order key :
  range_order (items c) order →
  items (cleanup_tick now order c) !! key
  = match items c !! key with
    | Some item => if After now (Expiration item) then None else Some item
    | None => None
    end.
Proof.
  intros Hord. unfold cleanup_tick; simpl.
  destruct (items c !! key) as [item|] eqn:Hk.
  - destruct (After now (Expiration item)) eqn:Hexp.
    + apply (cleanup_range_drop now order _ key item); [|done].
      by apply (range_order_elem (items c)).
    + rewrite cleanup_range_keep; [done|].
      intros item' Hin.
      apply (range_order_elem (items c) order key item' Hord) in Hin.
      by simplify_eq.
  - by apply cleanup_range_absent.
Qed.

(** The order of the [range] does not matter. *)
Lemma cleanup_tick_order c now order order' :
  range_order (items c) order → range_order (items c) order' →
  cleanup_tick now order c = cleanup_tick now order' c.
Proof.
  intros H1 H2.
  assert (items (cleanup_tick now order c) = items (cleanup_tick now order' c)) as Heq.
  { apply map_eq. intros key. by rewrite !cleanup_tick_lookup. }
  unfold cleanup_tick in *. simpl in Heq. by rewrite Heq.
Qed.

(** Every key of a run of Sets is in the table afterwards. *)
Lemma Set_all_stores (rs : list (set_req V)) c key :
  is_Some (items c !! key) ∨ key ∈ sr_key <$> rs →
  is_Some (items (Set_all rs c) !! key).
Proof.
  unfold Set_all. revert c.
  induction rs as [|r rs IH]; intros c [Hc|Hin]; simpl.
  - done.
  - by apply not_elem_of_nil in Hin.
  - apply IH. left. unfold apply_set.
    destruct (decide (sr_key r = key)) as [<-|Hne].
    + rewrite Set_lookup. eauto.
    + by rewrite Set_lookup_ne.
  - rewrite fmap_cons in Hin. apply elem_of_cons in Hin as [->|Hin].
    + apply IH. left. unfold apply_set. rewrite Set_lookup. eauto.
    + apply IH. by right.
Qed.

End Properties.

(** ** The claims about [Get], [Set], [Delete], [Clear] and the sweep *)

(** C1, as the spec words it, fails on the deadline itself: [Get] compares
    with [After], which is strict, so an entry whose Expiration equals the
    clock reading is still served. *)
Lemma Get_at_deadline_is_hit :
  ¬ (∀ (c : Cache Z) (key : string) (item : CacheItem Z) (now : Z),
       items c !! key = Some item → now >= Expiration item →
       (Get key now c).1 = (nil_any, false)).
Proof.
  intros Hclaim.
  specialize (Hclaim cache_k10 "k" {| Value := box 7; Expiration := 10 |} 10).
  assert ((Get "k" 10 cache_k10).1 = (box 7, true)) as Hhit by reflexivity.
  rewrite Hhit in Hclaim.
  discriminate Hclaim; [reflexivity | simpl; lia].
Qed.

(** C1 (amended): [Get] returns (nil, false) for an absent key and for a
    present key whose Expiration lies strictly before the clock reading; it
    returns a value only for a present entry, that entry's own value, and
    only while the clock reading is not after the Expiration (the deadline
    instant included). *)
Theorem Get_miss_when_absent_or_after {V : Type} (c : Cache V) (key : string) (now : Z) :
  ((items c !! key = None
    ∨ ∃ item, items c !! key = Some item ∧ Expiration item < now) →
   (Get key now c).1 = (nil_any, false))
  ∧ (∀ value, (Get key now c).1 = (value, true) →
       ∃ item, items c !! key = Some item ∧ value = Value item
               ∧ now ≤ Expiration item)
  ∧ (∀ item, items c !! key = Some item → now ≤ Expiration item →
       (Get key now c).1 = (Value item, true)).
Proof.
  split; [|split].
  - intros [Hnone | (item & Hk & Hlt)].
    + by rewrite Get_absent.
    + by rewrite (Get_expired c key item).
  - intros value Hget. unfold Get in Hget.
    destruct (items c !! key) as [item|] eqn:Hk; [|discriminate].
    destruct (After now (Expiration item)) eqn:Hexp; [discriminate|].
    simpl in Hget. exists item. apply After_false in Hexp.
    split; [done|]. split; [congruence | done].
  - intros item Hk Hle. by rewrite (Get_live c key item).
Qed.

Lemma Get_miss_when_absent_or_after_witness :
  (Get "k" 11 cache_k10).1 = (nil_any, false)
  ∧ (Get "absent" 11 cache_k10).1 = (nil_any, false).
Proof.
  split.
  - apply (proj1 (Get_miss_when_absent_or_after cache_k10 "k" 11)).
    right. exists {| Value := box 7; Expiration := 10 |}.
    split; [reflexivity | simpl; lia].
  - apply (proj1 (Get_miss_when_absent_or_after cache_k10 "absent" 11)).
    left. reflexivity.
Defined.

(** C2: after Set(k, v, t) with t > 0 at the instant [now], a Get(k) at an
    instant [now'] not before the Set and not after now + t returns
    (v, true), whatever the cache held before. *)
Theorem Set_then_Get_roundtrip {V : Type} (c : Cache V) (k : string) (v : any V)
    (t now now' : Z) :
  0 < t → now ≤ now' → now' ≤ now + t →
  (Get k now' (Set_ k v t now c)).1 = (v, true).
Proof.
  intros Ht Hmono Hdl.
  rewrite (Get_live _ k {| Value := v; Expiration := now + t |}); [done| |done].
  apply Set_lookup.
Qed.

Lemma Set_then_Get_roundtrip_witness :
  (Get "products:abc" 100 (Set_ "products:abc" (box 1) (5 * Minute) 100 (@New Z))).1
  = (box 1, true).
Proof.
  apply Set_then_Get_roundtrip; unfold Minute; lia.
Defined.

(** C3: one firing of the sweep, whatever order the range takes, leaves in
    the table exactly the entries whose Expiration is not strictly before
    the instant read at the start of the scan: an entry survives with its
    item unchanged, or it was expired (or absent) and is absent.  An entry
    whose Expiration is still in the future is kept, and a later Get made
    no later than that Expiration returns its original value. *)
Theorem cleanup_removes_exactly_expired {V : Type} (c : Cache V) (now : Z)
    (order : list (string * CacheItem V)) :
  range_order (items c) order →
  (∀ key item,
     items (cleanup_tick now order c) !! key = Some item
     ↔ items c !! key = Some item ∧ ¬ Expiration item < now)
  ∧ (∀ key item, items c !! key = Some item → Expiration item < now →
       items (cleanup_tick now order c) !! key = None)
  ∧ (∀ key item now', items c !! key = Some item →
       now < Expiration item → now' ≤ Expiration item →
       items (cleanup_tick now order c) !! key = Some item
       ∧ (Get key now' (cleanup_tick now order c)).1 = (Value item, true)).
Proof.
  intros Hord. split; [|split].
  - intros key item. rewrite (cleanup_tick_lookup c now order key Hord).
    destruct (items c !! key) as [item'|] eqn:Hk.
    + destruct (After now (Expiration item')) eqn:Hexp.
      * apply After_true in Hexp. split; [done|].
        intros [Heq Hnot]. simplify_eq. lia.
      * apply After_false in Hexp. split.
        -- intros Heq. simplify_eq. split; [done | lia].
        -- by intros [Heq _].
    + split; [done | by intros [? _]].
  - intros key item Hk Hlt. rewrite (cleanup_tick_lookup c now order key Hord), Hk.
    apply After_true in Hlt. by rewrite Hlt.
  - intros key item now' Hk Hfut Hlive.
    assert (items (cleanup_tick now order c) !! key = Some item) as Hkept.
    { rewrite (cleanup_tick_lookup c now order key Hord), Hk.
      assert (After now (Expiration item) = false) as -> by (apply After_false; lia).
      done. }
    split; [done|]. by rewrite (Get_live _ key item).
Qed.

Lemma cleanup_removes_exactly_expired_witness :
  items (cleanup_tick 100 (map_to_list (items cache_mixed)) cache_mixed) !! "old" = None
  ∧ (Get "new" 150 (cleanup_tick 100 (map_to_list (items cache_mixed)) cache_mixed)).1
    = (box 2, true).
Proof.
  pose proof (cleanup_removes_exactly_expired cache_mixed 100
                (map_to_list (items cache_mixed)) (reflexivity _)) as (_ & Hgone & Hkept).
  split.
  - apply (Hgone "old" {| Value := box 1; Expiration := 10 |}); [reflexivity | simpl; lia].
  - apply (Hkept "new" {| Value := box 2; Expiration := 320 |} 150);
      [reflexivity | simpl; lia | simpl; lia].
Defined.

(** C4, as the spec words it, fails for a zero ttl read back at the very
    instant of the Set: the Expiration equals the clock reading, which is
    not [After] it, and the value is returned. *)
Lemma Set_zero_ttl_same_instant_is_hit :
  ¬ (∀ (c : Cache Z) (k : string) (v : any Z) (ttl now now' : Z),
       ttl ≤ 0 → now ≤ now' →
       (Get k now' (Set_ k v ttl now c)).1 = (nil_any, false)).
Proof.
  intros Hclaim.
  specialize (Hclaim New "k" (box 7) 0 5 5).
  assert ((Get "k" 5 (Set_ "k" (box 7) 0 5 (@New Z))).1 = (box 7, true)) as Hhit
    by reflexivity.
  rewrite Hhit in Hclaim.
  discriminate Hclaim; lia.
Qed.

(** C4 (amended): Set(k, v, ttl) with a zero or negative ttl stores the
    entry, with Expiration now + ttl.  A Get(k) at or after the Set is a
    miss, (nil, false), when the ttl is negative, and when the ttl is zero
    and the clock has moved past the instant of the Set; that Get also
    removes the entry.  A Get at the very instant of a zero-ttl Set returns
    (v, true). *)
Theorem Set_nonpositive_ttl {V : Type} (c : Cache V) (k : string) (v : any V)
    (ttl now now' : Z) :
  ttl ≤ 0 → now ≤ now' →
  items (Set_ k v ttl now c) !! k = Some {| Value := v; Expiration := now + ttl |}
  ∧ (ttl < 0 ∨ now < now' →
     (Get k now' (Set_ k v ttl now c)).1 = (nil_any, false)
     ∧ items (Get k now' (Set_ k v ttl now c)).2 !! k = None)
  ∧ (ttl = 0 → now' = now →
     (Get k now' (Set_ k v ttl now c)).1 = (v, true)).
Proof.
  intros Httl Hmono. split; [apply Set_lookup|]. split.
  - intros Hpast.
    rewrite (Get_expired _ k {| Value := v; Expiration := now + ttl |});
      [| apply Set_lookup | simpl; lia].
    split; [done|]. unfold Delete; simpl. apply lookup_delete_eq.
  - intros -> ->.
    rewrite (Get_live _ k {| Value := v; Expiration := now + 0 |});
      [done | apply Set_lookup | simpl; lia].
Qed.

Lemma Set_nonpositive_ttl_witness :
  (Get "k" 5 (Set_ "k" (box 7) (-1) 5 (@New Z))).1 = (nil_any, false)
  ∧ (Get "k" 6 (Set_ "k" (box 7) 0 5 (@New Z))).1 = (nil_any, false).
Proof.
  split.
  - apply (Set_nonpositive_ttl New "k" (box 7) (-1) 5 5); lia.
  - apply (Set_nonpositive_ttl New "k" (box 7) 0 5 6); lia.
Defined.

(** C6: Set(k, v1, t1) followed by Set(k, v2, t2) leaves the cache exactly
    as the second Set alone would: the entry of k holds v2 and the
    Expiration now2 + t2, nothing of v1 or t1 remains.  With t2 > 0, a
    Get(k) not after that Expiration returns (v2, true). *)
Theorem Set_overwrites {V : Type} (c : Cache V) (k : string) (v1 v2 : any V)
    (t1 t2 now1 now2 now3 : Z) :
  Set_ k v2 t2 now2 (Set_ k v1 t1 now1 c) = Set_ k v2 t2 now2 c
  ∧ items (Set_ k v2 t2 now2 (Set_ k v1 t1 now1 c)) !! k
    = Some {| Value := v2; Expiration := now2 + t2 |}
  ∧ (0 < t2 → now2 ≤ now3 → now3 ≤ now2 + t2 →
     (Get k now3 (Set_ k v2 t2 now2 (Set_ k v1 t1 now1 c))).1 = (v2, true)).
Proof.
  split; [|split].
  - unfold Set_; simpl. by rewrite insert_insert_eq.
  - apply Set_lookup.
  - intros Ht Hmono Hdl.
    rewrite (Get_live _ k {| Value := v2; Expiration := now2 + t2 |});
      [done | apply Set_lookup | done].
Qed.

Lemma Set_overwrites_witness :
  (Get "k" 21 (Set_ "k" (box 2) 3 20 (Set_ "k" (box 1) 500 10 (@New Z)))).1
  = (box 2, true).
Proof.
  apply (Set_overwrites New "k" (box 1) (box 2) 500 3 10 20 21); lia.
Defined.

(** C7: a key still in the entry table whose Expiration lies strictly
    before the clock reading is a miss for Get, with no sweep in between;
    so is a key read back once the clock has passed the instant of its Set
    plus the ttl. *)
Theorem Get_expired_is_miss {V : Type} (c : Cache V) (k : string)
    (item : CacheItem V) (now : Z) :
  items c !! k = Some item → Expiration item < now →
  (Get k now c).1.2 = false
  ∧ (Get k now c).1 = (nil_any, false)
  ∧ (∀ v t now0, now0 + t < now →
       (Get k now (Set_ k v t now0 c)).1 = (nil_any, false)).
Proof.
  intros Hk Hlt. rewrite (Get_expired c k item now Hk Hlt).
  split; [done|]. split; [done|].
  intros v t now0 Hpast.
  by rewrite (Get_expired _ k {| Value := v; Expiration := now0 + t |});
    [| apply Set_lookup |].
Qed.

Lemma Get_expired_is_miss_witness :
  (Get "k" 11 cache_k10).1 = (nil_any, false).
Proof.
  refine (proj1 (proj2 (Get_expired_is_miss cache_k10 "k"
                          {| Value := box 7; Expiration := 10 |} 11 _ _))).
  - reflexivity.
  - simpl; lia.
Defined.

(** C8: Clear leaves an empty table, whatever the cache held.  After any
    run of Sets (each of whose keys is then in the table) followed by
    Clear, Get on any key, at any instant, returns (nil, false) and leaves
    the table empty. *)
Theorem Clear_removes_all {V : Type} (c : Cache V) (rs : list (set_req V))
    (key : string) (now : Z) :
  (key ∈ sr_key <$> rs → is_Some (items (Set_all rs c) !! key))
  ∧ items (Clear (Set_all rs c)) = ∅
  ∧ (Get key now (Clear (Set_all rs c))).1 = (nil_any, false)
  ∧ (Get key now (Clear (Set_all rs c))).2 = Clear (Set_all rs c).
Proof.
  split.
  { intros Hin. apply Set_all_stores. by right. }
  assert (items (Clear (Set_all rs c)) !! key = None) as Hnone
    by apply lookup_empty.
  split; [done|]. by rewrite (Get_absent _ key now Hnone).
Qed.

Lemma Clear_removes_all_witness :
  is_Some (items (Set_all three_sets cache_k10) !! "b")
  ∧ (Get "b" 12 (Clear (Set_all three_sets cache_k10))).1 = (nil_any, false)
  ∧ (Get "k" 12 (Clear (Set_all three_sets cache_k10))).1 = (nil_any, false).
Proof.
  split; [|split].
  - apply (proj1 (Clear_removes_all cache_k10 three_sets "b" 12)).
    simpl. right. left.
  - apply (Clear_removes_all cache_k10 three_sets "b" 12).
  - apply (Clear_removes_all cache_k10 three_sets "k" 12).
Defined.

(** C9: Delete of an absent key returns the cache unchanged, and a second
    Delete of the same key changes nothing after the first. *)
Theorem Delete_idempotent {V : Type} (c : Cache V) (k : string) :
  (items c !! k = None → Delete k c = c)
  ∧ Delete k (Delete k c) = Delete k c.
Proof.
  split.
  - intros Hnone. destruct c as [m]. unfold Delete; simpl in *.
    by rewrite delete_id.
  - unfold Delete; simpl. by rewrite delete_delete_eq.
Qed.

Lemma Delete_idempotent_witness :
  Delete "absent" cache_k10 = cache_k10.
Proof.
  apply (proj1 (Delete_idempotent cache_k10 "absent")). reflexivity.
Defined.

(** C10: Get on a present key whose Expiration is strictly before the clock
    reading deletes that key from the table (the cache after the call is
    the one Delete gives, the key is absent from it, every other key is
    untouched); Get on an absent key, or on a key whose Expiration is not
    before the clock reading, returns the cache unchanged. *)
Theorem Get_removes_expired {V : Type} (c : Cache V) (k : string) (now : Z) :
  (∀ item, items c !! k = Some item → Expiration item < now →
     (Get k now c).2 = Delete k c
     ∧ items (Get k now c).2 !! k = None
     ∧ (∀ k', k' ≠ k → items (Get k now c).2 !! k' = items c !! k'))
  ∧ (items c !! k = None → (Get k now c).2 = c)
  ∧ (∀ item, items c !! k = Some item → now ≤ Expiration item →
       (Get k now c).2 = c).
Proof.
  split; [|split].
  - intros item Hk Hlt. rewrite (Get_expired c k item now Hk Hlt).
    split; [done|]. unfold Delete; simpl. split.
    + apply lookup_delete_eq.
    + intros k' Hne. by apply lookup_delete_ne.
  - intros Hnone. by rewrite Get_absent.
  - intros item Hk Hle. by rewrite (Get_live c k item).
Qed.

Lemma Get_removes_expired_witness :
  items cache_k10 !! "k" = Some {| Value := box 7; Expiration := 10 |}
  ∧ items (Get "k" 11 cache_k10).2 !! "k" = None.
Proof.
  split; [reflexivity|].
  apply (proj1 (Get_removes_expired cache_k10 "k" 11)
           {| Value := box 7; Expiration := 10 |}).
  - reflexivity.
  - simpl; lia.
Defined.

(** ** The mutex discipline *)

Section Discipline.

Context {V : Type}.
Implicit Types (s : state V) (p q : point V) (l : list (point V)).
Implicit Types (f : point V → bool).

Lemma count_if_insert f l (i : nat) p p' :
  l !! i = Some p →
  (count_if f (<[i := p']> l) + (if f p then 1 else 0)
   = count_if f l + (if f p' then 1 else 0))%nat.
Proof.
  revert i. induction l as [|q l IH]; intros i Hi; [done|].
  destruct i as [|i]; simpl in *.
  - simplify_eq. lia.
  - specialize (IH i Hi). lia.
Qed.

Lemma count_if_one f l (i : nat) p :
  l !! i = Some p → f p = true → (1 ≤ count_if f l)%nat.
Proof.
  revert i. induction l as [|q l IH]; intros i Hi Hf; [done|].
  destruct i as [|i]; simpl in *.
  - simplify_eq. rewrite Hf. lia.
  - specialize (IH i Hi Hf). lia.
Qed.

Lemma count_if_two f l (i j : nat) p q :
  i ≠ j → l !! i = Some p → l !! j = Some q →
  f p = true → f q = true → (2 ≤ count_if f l)%nat.
Proof.
  revert i j. induction l as [|r l IH]; intros i j Hne Hi Hj Hp Hq; [done|].
  destruct i as [|i], j as [|j]; simpl in *; try done.
  - simplify_eq. rewrite Hp.
    pose proof (count_if_one f l j q Hj Hq). lia.
  - simplify_eq. rewrite Hq.
    pose proof (count_if_one f l i p Hi Hp). lia.
  - assert (i ≠ j) as Hne' by congruence.
    specialize (IH i j Hne' Hi Hj Hp Hq). lia.
Qed.

Lemma count_if_calls l :
  forallb is_call l = true →
  count_if holds_write l = 0%nat ∧ count_if holds_read l = 0%nat.
Proof.
  induction l as [|p l IH]; [done|]. simpl.
  intros [Hp Hl]%andb_true_iff. destruct (IH Hl) as [-> ->].
  by destruct p.
Qed.

Lemma mutex_inv_initial s : initial s → mutex_inv s.
Proof.
  intros [Hmu Hcalls]. unfold mutex_inv. rewrite Hmu. simpl.
  by destruct (count_if_calls _ Hcalls) as [-> ->].
Qed.

(** Every step keeps the mutex in agreement with the program points. *)
Lemma mutex_inv_step s s' ev :
  mutex_inv s → step s ev = Some s' → mutex_inv s'.
Proof.
  intros (Hw & Hr & Hwr) Hstep. destruct ev as [i|d]; simpl in Hstep.
  - destruct (procs s !! i) as [p|] eqn:Hp; [|done]. simpl in Hstep.
    destruct (step_point p (mutex s) (table s) (clock s)) as [[[p' mu'] c']|] eqn:Hsp;
      [|done].
    simpl in Hstep. simplify_eq. unfold mutex_inv. simpl.
    pose proof (count_if_insert holds_write _ i p p' Hp) as Ew.
    pose proof (count_if_insert holds_read _ i p p' Hp) as Er.
    pose proof (count_if_one holds_write _ i p Hp) as Ow.
    pose proof (count_if_one holds_read _ i p Hp) as Or.
    destruct (mutex s) as [w r]. simpl in *.
    destruct p as [[ | | | | ]| | | | | | | | |now' [|e rest]| | ]; simpl in Hsp;
      unfold Lock, RLock, Unlock, RUnlock in Hsp; simpl in Hsp;
      repeat match type of Hsp with
             | context [match ?x with _ => _ end] => destruct x eqn:?
             end;
      simpl in Hsp; try discriminate Hsp;
      injection Hsp as <- <- <-; simpl in *;
      try (specialize (Ow eq_refl)); try (specialize (Or eq_refl));
      destruct w; simpl in *; try (specialize (Hwr eq_refl));
      (split; [|split]); try (intros Hwt; try discriminate Hwt); lia.
  - case_bool_decide; [|done]. by simplify_eq.
Qed.

Lemma mutex_inv_run evs s s' :
  mutex_inv s → run evs s = Some s' → mutex_inv s'.
Proof.
  revert s. induction evs as [|ev evs IH]; intros s Hinv Hrun; simpl in Hrun.
  - by simplify_eq.
  - destruct (step s ev) as [s1|] eqn:Hstep; [|done]. simpl in Hrun.
    eapply IH; [|done]. by eapply mutex_inv_step.
Qed.

(** Whoever holds [Lock] is alone inside. *)
Lemma mutex_inv_writer_exclusive s : mutex_inv s → writer_exclusive s.
Proof.
  intros (Hw & Hr & Hwr) i j p q Hne Hi Hj Hp.
  destruct (inside q) eqn:Hq; [|done]. exfalso.
  unfold inside in Hq. apply orb_true_iff in Hq as [Hq|Hq].
  - pose proof (count_if_two holds_write _ i j p q Hne Hi Hj Hp Hq).
    destruct (writer (mutex s)); lia.
  - pose proof (count_if_one holds_write _ i p Hi Hp).
    pose proof (count_if_one holds_read _ j q Hj Hq).
    destruct (writer (mutex s)); [|lia].
    specialize (Hwr eq_refl). lia.
Qed.

(** [Set], [Delete], [Clear] and the sweep write the table with nobody
    else inside, in every interleaving. *)
Lemma writers_are_exclusive s0 s :
  initial s0 → reachable s0 s → writer_exclusive s.
Proof.
  intros Hinit [evs Hrun]. apply mutex_inv_writer_exclusive.
  eapply mutex_inv_run; [|done]. by apply mutex_inv_initial.
Qed.

(** The one write made without [Lock] is the delete in [Get]. *)
Lemma mutates_cases p :
  mutates p = true → holds_write p = true ∨ ∃ key, p = GetExpire key.
Proof.
  destruct p as [ | | | | | | | | |now' [|e rest]| | ]; simpl; try done; eauto.
Qed.

Lemma only_Get_breaks_exclusion s0 s (i j : nat) p q :
  initial s0 → reachable s0 s → i ≠ j →
  procs s !! i = Some p → procs s !! j = Some q →
  mutates p = true → inside q = true →
  (∃ key, p = GetExpire key) ∧ holds_read q = true.
Proof.
  intros Hinit Hreach Hne Hi Hj Hp Hq.
  pose proof (writers_are_exclusive s0 s Hinit Hreach) as Hex.
  destruct (mutates_cases p Hp) as [Hw|[key ->]].
  - rewrite (Hex i j p q Hne Hi Hj Hw) in Hq. done.
  - split; [eauto|].
    destruct (holds_write q) eqn:Hwq.
    + assert (i ≠ j → j ≠ i) as Hsym by congruence.
      by pose proof (Hex j i q (GetExpire key) (Hsym Hne) Hj Hi Hwq).
    + unfold inside in Hq. by rewrite Hwq in Hq.
Qed.

End Discipline.

(** ** Each method, run alone, is the function of the first part *)

Section Alone.

Context {V : Type}.
Implicit Types (c : Cache V) (now : Z) (key : string).

Lemma Set_alone c now key (value : any V) (ttl : Z) :
  run_alone 3 0 (alone c now (CallSet key value ttl))
  = finished (Set_ key value ttl now c) now None.
Proof. reflexivity. Qed.

Lemma Get_alone c now key :
  run_alone 5 0 (alone c now (CallGet key))
  = finished (Get key now c).2 now (Some (Get key now c).1).
Proof.
  unfold alone, finished, Get. simpl.
  destruct (items c !! key) as [item|] eqn:Hk; simpl; [|done].
  destruct (After now (Expiration item)) eqn:Hexp; simpl; done.
Qed.

Lemma Delete_alone c now key :
  run_alone 3 0 (alone c now (CallDelete key)) = finished (Delete key c) now None.
Proof. reflexivity. Qed.

Lemma Clear_alone c now :
  run_alone 3 0 (alone c now CallClear) = finished (Clear c) now None.
Proof. reflexivity. Qed.

Lemma visits_alone (fuel : nat) (mu : RWMutex) now now'
    (pending : list (string * CacheItem V)) (m : gmap string (CacheItem V)) :
  run_alone (length pending + fuel) 0
    {| mutex := mu; table := {| items := m |}; clock := now;
       procs := [TickVisit now' pending] |}
  = run_alone fuel 0
      {| mutex := mu; table := {| items := cleanup_range now' pending m |};
         clock := now; procs := [TickVisit now' []] |}.
Proof.
  revert m. induction pending as [|e rest IH]; intros m; [done|].
  simpl. apply IH.
Qed.

Lemma cleanup_alone c now :
  run_alone (length (map_to_list (items c)) + 4) 0 (alone c now CallTick)
  = finished (cleanup_tick now (map_to_list (items c)) c) now None.
Proof.
  destruct c as [m]. unfold alone, finished, cleanup_tick. simpl.
  replace (length (map_to_list m) + 4)%nat
    with (S (S (length (map_to_list m) + 2)))%nat by lia.
  simpl. by rewrite visits_alone.
Qed.

End Alone.

(** ** The claim about atomicity *)

(** C5 does not hold of [Get]: it takes the mutex with [RLock] and, on an
    expired entry, runs [delete(c.items, key)] still holding only the read
    lock.  Two goroutines calling Get("k") on the expired key "k" both get
    past [RLock]; the first reaches its delete while the second is inside,
    about to read the table, and then both stand at the delete together.
    No goroutine that took [Lock] is involved. *)
Theorem Get_deletes_under_read_lock :
  initial two_readers
  ∧ (∃ s, run [Run 0; Run 1; Run 0; Run 0]%nat two_readers = Some s
          ∧ mutex s = {| writer := false; readers := 2 |}
          ∧ procs s = [GetExpire "k"; GetLoad "k"]
          ∧ ¬ exclusive s)
  ∧ (∃ s, run [Run 0; Run 1; Run 0; Run 0; Run 1; Run 1]%nat two_readers = Some s
          ∧ procs s = [GetExpire "k"; GetExpire "k"]
          ∧ ¬ exclusive s)
  ∧ ¬ (∀ s0 s : state Z, initial s0 → reachable s0 s → exclusive s).
Proof.
  assert (initial two_readers) as Hinit by done.
  assert (∀ (s : state Z) q,
            procs s = [GetExpire "k"; q] → inside q = true → ¬ exclusive s)
    as Hrace.
  { intros s q Hprocs Hq Hex.
    specialize (Hex 0%nat 1%nat (GetExpire "k") q).
    rewrite Hprocs in Hex. rewrite Hex in Hq; done. }
  split; [done|]. split; [|split].
  - eexists. split; [reflexivity|]. split; [done|]. split; [done|].
    by apply (Hrace _ (GetLoad "k")).
  - eexists. split; [reflexivity|]. split; [done|].
    by apply (Hrace _ (GetExpire "k")).
  - intros Hclaim.
    pose (s := {| mutex := {| writer := false; readers := 2 |};
                  table := cache_k10; clock := 11;
                  procs := [GetExpire "k"; GetLoad "k"] |} : state Z).
    apply (Hrace s (GetLoad "k")); [done | done |].
    apply (Hclaim two_readers s Hinit).
    by exists [Run 0; Run 1; Run 0; Run 0]%nat.
Qed.

(** ** More about the cache: how the operations compose *)

(** X1: a Set on one key changes no Get on another key: the pair returned
    is the same, and the removal Get may do commutes with the Set. *)
Theorem Set_leaves_other_keys {V : Type} (c : Cache V) (k k' : string)
    (v : any V) (ttl now now' : Z) :
  k ≠ k' →
  (Get k' now' (Set_ k v ttl now c)).1 = (Get k' now' c).1
  ∧ (Get k' now' (Set_ k v ttl now c)).2 = Set_ k v ttl now (Get k' now' c).2.
Proof.
  intros Hne. unfold Get.
  rewrite (Set_lookup_ne c k k' v ttl now Hne).
  destruct (items c !! k') as [item|]; [|done].
  destruct (After now' (Expiration item)); [|done].
  split; [done|]. unfold Set_; simpl. by rewrite delete_insert_ne.
Qed.

Lemma Set_leaves_other_keys_witness :
  (Get "k" 9 (Set_ "j" (box 1) 5 8 cache_k10)).1 = (box 7, true).
Proof.
  refine (eq_trans (proj1 (Set_leaves_other_keys cache_k10 "j" "k" (box 1) 5 8 9 _)) _).
  - discriminate.
  - reflexivity.
Defined.

(** X2: after Delete(k), Get(k) is a miss at every instant, and Get on any
    other key returns what it returned before. *)
Theorem Delete_then_Get {V : Type} (c : Cache V) (k k' : string) (now : Z) :
  (Get k now (Delete k c)).1 = (nil_any, false)
  ∧ (k ≠ k' → (Get k' now (Delete k c)).1 = (Get k' now c).1).
Proof.
  split.
  - rewrite Get_absent; [done|]. unfold Delete; simpl. apply lookup_delete_eq.
  - intros Hne. unfold Get, Delete; simpl. rewrite lookup_delete_ne; [|done].
    destruct (items c !! k') as [item|]; [|done].
    by destruct (After now (Expiration item)).
Qed.

Lemma Delete_then_Get_witness :
  (Get "k" 9 (Delete "j" cache_k10)).1 = (box 7, true).
Proof.
  refine (eq_trans (proj2 (Delete_then_Get cache_k10 "j" "k" 9) _) _).
  - discriminate.
  - reflexivity.
Defined.

(** X3: the sweep is invisible to Get: a Get made no earlier than a firing
    of the ticker returns what it would have returned without it. *)
Theorem cleanup_invisible_to_Get {V : Type} (c : Cache V) (k : string)
    (now now' : Z) (order : list (string * CacheItem V)) :
  range_order (items c) order → now ≤ now' →
  (Get k now' (cleanup_tick now order c)).1 = (Get k now' c).1.
Proof.
  intros Hord Hle. unfold Get.
  rewrite (cleanup_tick_lookup c now order k Hord).
  destruct (items c !! k) as [item|]; [|done].
  destruct (After now (Expiration item)) eqn:Hexp.
  - apply After_true in Hexp.
    assert (After now' (Expiration item) = true) as -> by (apply After_true; lia).
    done.
  - by destruct (After now' (Expiration item)).
Qed.

Lemma cleanup_invisible_to_Get_witness :
  (Get "edge" 100 (cleanup_tick 100 (map_to_list (items cache_mixed)) cache_mixed)).1
  = (box 3, true).
Proof.
  refine (eq_trans (cleanup_invisible_to_Get cache_mixed "edge" 100 100
                      (map_to_list (items cache_mixed)) (reflexivity _) _) _).
  - lia.
  - reflexivity.
Defined.

(** X4: the removal a Get does on an expired entry is invisible to every
    later Get, on the same key or another. *)
Theorem Get_removal_invisible {V : Type} (c : Cache V) (k1 k2 : string)
    (now1 now2 : Z) :
  now1 ≤ now2 →
  (Get k2 now2 (Get k1 now1 c).2).1 = (Get k2 now2 c).1.
Proof.
  intros Hle. unfold Get at 2.
  destruct (items c !! k1) as [item|] eqn:Hk1; [|done].
  destruct (After now1 (Expiration item)) eqn:Hexp; [|done].
  simpl. unfold Get; simpl.
  destruct (decide (k1 = k2)) as [<-|Hne].
  - rewrite lookup_delete_eq, Hk1. apply After_true in Hexp.
    assert (After now2 (Expiration item) = true) as -> by (apply After_true; lia).
    done.
  - rewrite lookup_delete_ne; [|done].
    destruct (items c !! k2) as [item2|]; [|done].
    by destruct (After now2 (Expiration item2)).
Qed.

Lemma Get_removal_invisible_witness :
  (Get "new" 150 (Get "old" 100 cache_mixed).2).1 = (box 2, true).
Proof.
  refine (eq_trans (Get_removal_invisible cache_mixed "old" "new" 100 150 _) _).
  - lia.
  - reflexivity.
Defined.

(** X5: two firings of the ticker, the second no earlier than the first,
    leave the table one firing at the later instant would leave; a second
    firing at the same instant changes nothing. *)
Theorem cleanup_twice {V : Type} (c : Cache V) (now now' : Z)
    (order order' order2 : list (string * CacheItem V)) :
  range_order (items c) order →
  range_order (items (cleanup_tick now order c)) order2 →
  range_order (items c) order' →
  now ≤ now' →
  cleanup_tick now' order2 (cleanup_tick now order c) = cleanup_tick now' order' c.
Proof.
  intros H1 H2 H3 Hle.
  assert (items (cleanup_tick now' order2 (cleanup_tick now order c))
          = items (cleanup_tick now' order' c)) as Heq.
  { apply map_eq. intros key.
    rewrite (cleanup_tick_lookup _ now' order2 key H2).
    rewrite (cleanup_tick_lookup c now order key H1).
    rewrite (cleanup_tick_lookup c now' order' key H3).
    destruct (items c !! key) as [item|]; [|done].
    destruct (After now (Expiration item)) eqn:Hexp; [|done].
    apply After_true in Hexp.
    assert (After now' (Expiration item) = true) as -> by (apply After_true; lia).
    done. }
  destruct (cleanup_tick now' order2 (cleanup_tick now order c)) as [m1].
  destruct (cleanup_tick now' order' c) as [m2]. simpl in Heq. by subst.
Qed.

Lemma cleanup_twice_witness :
  cleanup_tick 100 (map_to_list (items (cleanup_tick 50 (map_to_list (items cache_mixed)) cache_mixed)))
    (cleanup_tick 50 (map_to_list (items cache_mixed)) cache_mixed)
  = cleanup_tick 100 (map_to_list (items cache_mixed)) cache_mixed.
Proof.
  apply cleanup_twice; [unfold range_order; reflexivity .. | lia].
Defined.

(** X6: the sweep never adds or alters an entry, and when no entry has
    expired (an empty table included) it leaves the cache as it was. *)
Theorem cleanup_only_removes {V : Type} (c : Cache V) (now : Z)
    (order : list (string * CacheItem V)) :
  range_order (items c) order →
  items (cleanup_tick now order c) ⊆ items c
  ∧ ((∀ key item, items c !! key = Some item → now ≤ Expiration item) →
     cleanup_tick now order c = c).
Proof.
  intros Hord. split.
  - apply map_subseteq_spec. intros key item.
    rewrite (cleanup_tick_lookup c now order key Hord).
    destruct (items c !! key) as [item'|]; [|done].
    by destruct (After now (Expiration item')).
  - intros Hlive.
    assert (items (cleanup_tick now order c) = items c) as Heq.
    { apply map_eq. intros key.
      rewrite (cleanup_tick_lookup c now order key Hord).
      destruct (items c !! key) as [item|] eqn:Hk; [|done].
      assert (After now (Expiration item) = false) as ->; [|done].
      apply After_false. by apply (Hlive key). }
    destruct (cleanup_tick now order c) as [m1]. destruct c as [m2].
    simpl in Heq. by subst.
Qed.

Lemma cleanup_only_removes_witness :
  cleanup_tick 5 [] (@New Z) = New
  ∧ items (cleanup_tick 100 (map_to_list (items cache_mixed)) cache_mixed)
    ⊆ items cache_mixed.
Proof.
  split.
  - apply (proj2 (cleanup_only_removes (@New Z) 5 [] (reflexivity _))).
    intros key item Hk. simpl in Hk. by rewrite lookup_empty in Hk.
  - apply (proj1 (cleanup_only_removes cache_mixed 100
                    (map_to_list (items cache_mixed)) (reflexivity _))).
Defined.

(** ** More about the mutex *)

Section Progress.

Context {V : Type}.
Implicit Types (s : state V) (p q : point V) (l : list (point V)).

Lemma count_if_zero_or_found (f : point V → bool) l :
  count_if f l = 0%nat ∨ ∃ (i : nat) p, l !! i = Some p ∧ f p = true.
Proof.
  induction l as [|q l IH]; [by left|]. simpl.
  destruct (f q) eqn:Hq.
  - right. by exists 0%nat, q.
  - destruct IH as [->|(i & p & Hi & Hp)]; [by left|].
    right. by exists (S i), p.
Qed.




End Progress.

(** X7: in every interleaving of calls started on a free mutex, a
    goroutine between [Lock] and [Unlock] (in Set, Delete, Clear or the
    sweep) is the only one inside a method; the mutex has a writer exactly
    when there is such a goroutine, and its reader count is the number of
    goroutines inside Get. *)
Theorem Lock_holder_is_alone {V : Type} (s0 s : state V) :
  initial s0 → reachable s0 s →
  (∀ (i j : nat) p q, i ≠ j →
     procs s !! i = Some p → procs s !! j = Some q →
     holds_write p = true → inside q = false)
  ∧ (writer (mutex s) = true
     ↔ ∃ (i : nat) p, procs s !! i = Some p ∧ holds_write p = true)
  ∧ readers (mutex s) = count_if holds_read (procs s).
Proof.
  intros Hinit [evs Hrun].
  assert (mutex_inv s) as Hinv.
  { eapply mutex_inv_run; [|done]. by apply mutex_inv_initial. }
  split; [by apply mutex_inv_writer_exclusive|].
  destruct Hinv as (Hw & Hr & _). split; [|done]. split.
  - intros Hwt. rewrite Hwt in Hw.
    destruct (count_if_zero_or_found holds_write (procs s)) as [H0|Hex]; [lia|done].
  - intros (i & p & Hi & Hp).
    pose proof (count_if_one holds_write _ i p Hi Hp).
    destruct (writer (mutex s)); [done|lia].
Qed.

Lemma Lock_holder_is_alone_witness :
  ∃ s, run [Run 0%nat] writer_and_reader = Some s
       ∧ writer (mutex s) = true
       ∧ step s (Run 1%nat) = None.
Proof.
  eexists. split; [reflexivity|].
  assert (initial writer_and_reader) as Hinit by (split; reflexivity).
  pose proof (Lock_holder_is_alone writer_and_reader _ Hinit
                (ex_intro _ [Run 0%nat] eq_refl)) as (_ & Hw & _).
  split; [|reflexivity].
  apply Hw. exists 0%nat. eexists. split; reflexivity.
Defined.



(** ** The paginated product listing *)

Section Listing.

Context `{Externals}.
Context (json_Unmarshal : string → result (list ProductVariant)).

Lemma append_assoc (a b c : string) : (a +:+ b) +:+ c = a +:+ b +:+ c.
Proof.
  induction a as [|x a IH]; [done|].
  unfold String.append; fold String.append. by f_equal.
Qed.

Lemma append_empty_r (a : string) : a +:+ "" = a.
Proof.
  induction a as [|x a IH]; [done|].
  unfold String.append; fold String.append. by f_equal.
Qed.

Lemma wrap64_small (z : Z) : - 2 ^ 63 ≤ z < 2 ^ 63 → wrap64 z = z.
Proof.
  intros Hz. unfold wrap64. rewrite Z.mod_small; lia.
Qed.

Lemma clamp_page_ge (page : Z) : 1 ≤ clamp_page page.
Proof. unfold clamp_page. case_bool_decide; lia. Qed.

Lemma clamp_pageSize_range (pageSize : Z) : 1 ≤ clamp_pageSize pageSize ≤ 100.
Proof. unfold clamp_pageSize. repeat case_bool_decide; lia. Qed.

End Listing.

(** X9: the cache key does not tell the category from the search text: a
    category that ends in [":search=" ++ x] with the search y gets the key
    of that category cut short with the search [x ++ ":search=" ++ y],
    though the two queries differ. *)
Theorem cache_key_collision `{Externals} (page pageSize : Z) (c x y : string) :
  generateCacheKey page pageSize (c +:+ ":search=" +:+ x) y
  = generateCacheKey page pageSize c (x +:+ ":search=" +:+ y)
  ∧ c +:+ ":search=" +:+ x ≠ c.
Proof.
  split.
  - unfold generateCacheKey, cache_key_text. do 2 f_equal.
    by rewrite !append_assoc.
  - intros Heq. rewrite <- (append_empty_r c) in Heq at 2.
    apply String.app_inj in Heq. discriminate Heq.
Qed.



(** X11: the query texts do not contain what the caller passed: they
    depend only on whether the category and the search text are empty;
    the values themselves travel as arguments. *)
Theorem query_text_ignores_values (c c' q q' : string) :
  (c = "" ↔ c' = "") → (q = "" ↔ q' = "") →
  let w := build_where c q in
  let w' := build_where c' q' in
  count_query (where_clause (whereConditions w))
  = count_query (where_clause (whereConditions w'))
  ∧ select_query (where_clause (whereConditions w)) (argIndex w)
    = select_query (where_clause (whereConditions w')) (argIndex w')
  ∧ args w = (if decide (c = "") then [] else [ArgString c])
             ++ (if decide (q = "") then [] else [ArgString ("%" +:+ q +:+ "%")]).
Proof.
  intros Hc Hq. unfold build_where, where_category, where_search.
  destruct (decide (c = "")) as [Ec|Ec], (decide (c' = "")) as [Ec'|Ec'];
    try (exfalso; tauto);
    destruct (decide (q = "")) as [Eq|Eq], (decide (q' = "")) as [Eq'|Eq'];
    try (exfalso; tauto); done.
Qed.

Lemma query_text_ignores_values_witness :
  select_query (where_clause (whereConditions (build_where "a" "")))
               (argIndex (build_where "a" ""))
  = select_query (where_clause (whereConditions (build_where "x' OR 1=1 --" "")))
                 (argIndex (build_where "x' OR 1=1 --" "")).
Proof.
  refine (proj1 (proj2 (query_text_ignores_values "a" "x' OR 1=1 --" "" "" _ _))).
  - split; discriminate.
  - done.
Defined.

(** X12: the loop over the rows returns products only when every Scan went
    through, and then one product per row, in the order of the rows; a
    single failing Scan makes the whole call fail. *)
Theorem scan_rows_all_or_nothing `{Externals}
    (json_Unmarshal : string → result (list ProductVariant))
    (rows : list (result product_row)) (products : list Product) :
  scan_rows json_Unmarshal rows [] = Ok products
  ↔ ∃ rows', rows = Ok <$> rows'
             ∧ products = scan_product json_Unmarshal <$> rows'.
Proof.
  enough (∀ acc,
            scan_rows json_Unmarshal rows acc = Ok products
            ↔ ∃ rows', rows = Ok <$> rows'
                       ∧ products = acc ++ (scan_product json_Unmarshal <$> rows'))
    as Hacc by apply (Hacc []).
  revert products. induction rows as [|[row|err] rows IH]; intros products acc; simpl.
  - split.
    + intros [= <-]. exists []. by rewrite app_nil_r.
    + intros (rows' & Hrows & ->). destruct rows'; [|done].
      simpl. by rewrite app_nil_r.
  - rewrite IH. split.
    + intros (rows' & -> & ->). exists (row :: rows'). split; [done|].
      simpl. by rewrite <- app_assoc.
    + intros (rows' & Hrows & ->). destruct rows' as [|row' rows']; [done|].
      simpl in Hrows. injection Hrows as -> ->. exists rows'. split; [done|].
      simpl. by rewrite <- app_assoc.
  - split; [done|]. intros (rows' & Hrows & _). by destruct rows'.
Qed.



(** X14: the metadata of a freshly built page.  The page number is at
    least 1 and the page size between 1 and 100, whatever the caller asked
    for; TotalPages is the count divided by the page size, rounded up;
    HasNext says exactly that records remain after this page, HasPrev that
    this is not the first page.  The count is taken to be one the pool can
    give: not negative, and below 2^63 - 100. *)
Theorem page_metadata `{Externals}
    (json_Unmarshal : string → result (list ProductVariant))
    (pool : Pool) (page pageSize : Z) (categoryID search : string)
    (r : PaginatedResult Product) :
  query_page json_Unmarshal pool (clamp_page page) (clamp_pageSize pageSize)
             categoryID search = Ok r →
  0 ≤ TotalCount r ≤ 2 ^ 63 - 101 →
  Page r = clamp_page page ∧ 1 ≤ Page r
  ∧ PageSize r = clamp_pageSize pageSize ∧ 1 ≤ PageSize r ≤ 100
  ∧ (TotalPages r - 1) * PageSize r < TotalCount r ≤ TotalPages r * PageSize r
  ∧ (HasNext r = true ↔ Page r * PageSize r < TotalCount r)
  ∧ (HasPrev r = true ↔ 1 < Page r).
Proof.
  intros Hq Ht. unfold query_page in Hq.
  destruct (QueryRow_count pool _ _) as [t|]; [|done].
  destruct (Query_rows pool _ _) as [rows|]; [|done].
  destruct (scan_rows json_Unmarshal (rows_next rows) []) as [products|]; [|done].
  destruct (rows_err rows); [done|].
  injection Hq as <-. simpl in *.
  pose proof (clamp_page_ge page) as Hp.
  pose proof (clamp_pageSize_range pageSize) as Hs.
  set (pg := clamp_page page) in *. set (ps := clamp_pageSize pageSize) in *.
  assert (wrap64 (wrap64 (wrap64 (t + ps) - 1) ÷ ps) = (t + ps - 1) / ps) as Htp.
  { rewrite (wrap64_small (t + ps)) by lia.
    rewrite (wrap64_small (t + ps - 1)) by lia.
    rewrite Z.quot_div_nonneg by lia.
    apply wrap64_small.
    pose proof (Z.div_pos (t + ps - 1) ps).
    pose proof (Z.div_le_upper_bound (t + ps - 1) ps (2 ^ 63 - 1)).
    lia. }
  rewrite Htp.
  pose proof (Z.div_mod (t + ps - 1) ps) as Hdm.
  pose proof (Z.mod_pos_bound (t + ps - 1) ps) as Hmod.
  set (tp := (t + ps - 1) / ps) in *.
  repeat split; try lia; try nia.
  - intros Hn. apply bool_decide_eq_true in Hn. nia.
  - intros Hn. apply bool_decide_eq_true. nia.
  - intros Hn. apply bool_decide_eq_true in Hn. lia.
  - intros Hn. apply bool_decide_eq_true. lia.
Qed.

Lemma page_metadata_witness :
  ∃ r, query_page sample_Unmarshal sample_pool (clamp_page 0) (clamp_pageSize 1000)
         "" "" = Ok r
       ∧ (HasNext r = true ↔ Page r * PageSize r < TotalCount r).
Proof.
  eexists. split; [reflexivity|].
  refine (proj1 (proj2 (proj2 (proj2 (proj2 (proj2
            (page_metadata sample_Unmarshal sample_pool 0 1000 "" "" _ eq_refl _))))))).
  simpl. lia.
Defined.

Lemma scan_rows_all_or_nothing_witness :
  scan_rows sample_Unmarshal [Ok (sample_row "p2" None)] []
  = Ok [scan_product sample_Unmarshal (sample_row "p2" None)].
Proof.
  apply (proj2 (scan_rows_all_or_nothing sample_Unmarshal
                  [Ok (sample_row "p2" None)]
                  [scan_product sample_Unmarshal (sample_row "p2" None)])).
  by exists [sample_row "p2" None].
Defined.

(** ** The listing and its cache *)

Section CacheAside.

Context `{Externals}.
Context (json_Unmarshal : string → result (list ProductVariant)).
Implicit Types (pool : Pool) (c : Cache (PaginatedResult Product)).
Implicit Types (r : PaginatedResult Product).

Lemma GetProductsPaginated_hit pool page pageSize categoryID search
    now_get now_set c r :
  (Get (generateCacheKey (clamp_page page) (clamp_pageSize pageSize) categoryID search)
       now_get c).1 = (box r, true) →
  GetProductsPaginated json_Unmarshal pool page pageSize categoryID search
    now_get now_set c
  = (Ok r, (Get (generateCacheKey (clamp_page page) (clamp_pageSize pageSize)
                   categoryID search) now_get c).2).
Proof. intros Hhit. unfold GetProductsPaginated. cbn zeta. by rewrite Hhit. Qed.

Lemma GetProductsPaginated_miss pool page pageSize categoryID search
    now_get now_set c :
  let key := generateCacheKey (clamp_page page) (clamp_pageSize pageSize)
               categoryID search in
  no_hit c key now_get →
  GetProductsPaginated json_Unmarshal pool page pageSize categoryID search
    now_get now_set c
  = match query_page json_Unmarshal pool (clamp_page page)
            (clamp_pageSize pageSize) categoryID search with
    | Error err => (Error err, (Get key now_get c).2)
    | Ok r => (Ok r, Set_ key (box r) (5 * Minute) now_set (Get key now_get c).2)
    end.
Proof.
  intros key Hmiss. unfold GetProductsPaginated. cbn zeta. fold key.
  destruct (Get key now_get c).1 as [[|cached] [|]] eqn:Hget; try done.
  by destruct (Hmiss cached).
Qed.

(** Once a lookup finds nothing usable, no later lookup of that key does,
    until somebody stores under it. *)
Lemma no_hit_later c (key : string) (now now' : Z) :
  no_hit c key now → now ≤ now' → no_hit (Get key now c).2 key now'.
Proof.
  unfold no_hit. intros Hmiss Hle cached.
  specialize (Hmiss cached). unfold Get in *.
  destruct (items c !! key) as [item|] eqn:Hk; simpl; [|by rewrite Hk].
  destruct (After now (Expiration item)) eqn:Hexp; simpl.
  - by rewrite lookup_delete_eq.
  - rewrite Hk. by destruct (After now' (Expiration item)).
Qed.

End CacheAside.

(** X15: a listing that missed the cache and was built from the pool is
    served again, unchanged, to every call whose clamped parameters give
    the same cache key and whose lookup comes no later than five minutes
    after the store: that call returns the first result whatever the pool
    would answer by then, and leaves the cache as it is. *)
Theorem second_call_is_served_from_cache `{Externals}
    (json_Unmarshal : string → result (list ProductVariant))
    (pool pool' : Pool) (page pageSize page' pageSize' : Z)
    (categoryID search categoryID' search' : string)
    (now_get now_set now_get' now_set' : Z)
    (c : Cache (PaginatedResult Product)) (r : PaginatedResult Product) :
  let key := generateCacheKey (clamp_page page) (clamp_pageSize pageSize)
               categoryID search in
  let first := GetProductsPaginated json_Unmarshal pool page pageSize
                 categoryID search now_get now_set c in
  no_hit c key now_get →
  query_page json_Unmarshal pool (clamp_page page) (clamp_pageSize pageSize)
             categoryID search = Ok r →
  generateCacheKey (clamp_page page') (clamp_pageSize pageSize')
                   categoryID' search' = key →
  now_get' ≤ now_set + 5 * Minute →
  first.1 = Ok r
  ∧ items first.2 !! key
    = Some {| Value := box r; Expiration := now_set + 5 * Minute |}
  ∧ GetProductsPaginated json_Unmarshal pool' page' pageSize'
      categoryID' search' now_get' now_set' first.2
    = (Ok r, first.2).
Proof.
  intros key first Hmiss Hq Hkey Hlive. subst first.
  rewrite (GetProductsPaginated_miss json_Unmarshal pool page pageSize
             categoryID search now_get now_set c Hmiss).
  fold key. rewrite Hq. simpl.
  split; [done|]. split; [apply Set_lookup|].
  rewrite (GetProductsPaginated_hit json_Unmarshal pool' page' pageSize'
             categoryID' search' now_get' now_set' _ r); rewrite Hkey.
  - by rewrite (Get_live _ key {| Value := box r;
                                  Expiration := now_set + 5 * Minute |});
      [| apply Set_lookup |].
  - by rewrite (Get_live _ key {| Value := box r;
                                  Expiration := now_set + 5 * Minute |});
      [| apply Set_lookup |].
Qed.

Lemma second_call_is_served_from_cache_witness :
  (GetProductsPaginated sample_Unmarshal broken_pool 1 100 "" "" 200 201
     (GetProductsPaginated sample_Unmarshal sample_pool 0 1000 "" "" 10 11 New).2).1
  = (GetProductsPaginated sample_Unmarshal sample_pool 0 1000 "" "" 10 11 New).1.
Proof.
  pose proof (second_call_is_served_from_cache sample_Unmarshal sample_pool
                broken_pool 0 1000 1 100 "" "" "" "" 10 11 200 201 New) as Hthm.
  cbn zeta in Hthm.
  edestruct Hthm as (H1 & _ & H2).
  - intros cached. vm_compute. discriminate.
  - reflexivity.
  - reflexivity.
  - unfold Minute. lia.
  - rewrite H2, H1. reflexivity.
Defined.

(** X16: a failed listing stores nothing: the cache after the call is the
    one its lookup left, with no entry the cache did not have before, and
    the next call with the same parameters, made no earlier, goes to the
    pool again and returns what the pool then answers. *)
Theorem errors_are_not_cached `{Externals}
    (json_Unmarshal : string → result (list ProductVariant))
    (pool pool' : Pool) (page pageSize : Z) (categoryID search : string)
    (now_get now_set now_get' now_set' : Z)
    (c : Cache (PaginatedResult Product)) (err : string) :
  let key := generateCacheKey (clamp_page page) (clamp_pageSize pageSize)
               categoryID search in
  let first := GetProductsPaginated json_Unmarshal pool page pageSize
                 categoryID search now_get now_set c in
  first.1 = Error err →
  now_get ≤ now_get' →
  first.2 = (Get key now_get c).2
  ∧ items first.2 ⊆ items c
  ∧ (GetProductsPaginated json_Unmarshal pool' page pageSize
       categoryID search now_get' now_set' first.2).1
    = query_page json_Unmarshal pool' (clamp_page page) (clamp_pageSize pageSize)
        categoryID search.
Proof.
  intros key first Herr Hle. subst first.
  assert (no_hit c key now_get) as Hmiss.
  { intros cached Hhit.
    rewrite (GetProductsPaginated_hit json_Unmarshal pool page pageSize
               categoryID search now_get now_set c cached Hhit) in Herr.
    discriminate Herr. }
  rewrite (GetProductsPaginated_miss json_Unmarshal pool page pageSize
             categoryID search now_get now_set c Hmiss) in *.
  fold key in Herr |- *.
  destruct (query_page json_Unmarshal pool _ _ categoryID search) as [r|e];
    [discriminate Herr|]. simpl.
  split; [done|]. split.
  - unfold Get. destruct (items c !! key) as [item|]; [|done].
    destruct (After now_get (Expiration item)); [|done].
    simpl. apply delete_subseteq.
  - rewrite (GetProductsPaginated_miss json_Unmarshal pool' page pageSize
               categoryID search now_get' now_set' _
               (no_hit_later c key now_get now_get' Hmiss Hle)).
    by destruct (query_page json_Unmarshal pool' _ _ categoryID search).
Qed.

Lemma errors_are_not_cached_witness :
  (GetProductsPaginated sample_Unmarshal sample_pool 1 20 "" "" 12 13
     (GetProductsPaginated sample_Unmarshal broken_pool 1 20 "" "" 10 11 New).2).1
  = query_page sample_Unmarshal sample_pool (clamp_page 1) (clamp_pageSize 20) "" "".
Proof.
  refine (proj2 (proj2 (errors_are_not_cached sample_Unmarshal broken_pool
                          sample_pool 1 20 "" "" 10 11 12 13 New
                          "error counting products: connection refused" _ _))).
  - reflexivity.
  - lia.
Defined.

(** X17: a stored listing is not served once the clock has passed the
    store by more than five minutes: the call then goes to the pool and
    returns what the pool answers. *)
Theorem stored_listing_expires `{Externals}
    (json_Unmarshal : string → result (list ProductVariant))
    (pool pool' : Pool) (page pageSize : Z) (categoryID search : string)
    (now_get now_set now_get' now_set' : Z)
    (c : Cache (PaginatedResult Product)) (r : PaginatedResult Product) :
  let key := generateCacheKey (clamp_page page) (clamp_pageSize pageSize)
               categoryID search in
  let first := GetProductsPaginated json_Unmarshal pool page pageSize
                 categoryID search now_get now_set c in
  no_hit c key now_get →
  first.1 = Ok r →
  now_set + 5 * Minute < now_get' →
  (GetProductsPaginated json_Unmarshal pool' page pageSize
     categoryID search now_get' now_set' first.2).1
  = query_page json_Unmarshal pool' (clamp_page page) (clamp_pageSize pageSize)
      categoryID search.
Proof.
  intros key first Hmiss Hok Hlate. subst first.
  rewrite (GetProductsPaginated_miss json_Unmarshal pool page pageSize
             categoryID search now_get now_set c Hmiss) in *.
  fold key in Hok |- *.
  destruct (query_page json_Unmarshal pool _ _ categoryID search) as [r0|e];
    [|discriminate Hok]. simpl in *.
  rewrite (GetProductsPaginated_miss json_Unmarshal pool' page pageSize
             categoryID search now_get' now_set').
  - by destruct (query_page json_Unmarshal pool' _ _ categoryID search).
  - intros cached. fold key.
    by rewrite (Get_expired _ key {| Value := box r0;
                                     Expiration := now_set + 5 * Minute |});
      [| apply Set_lookup |].
Qed.

Lemma stored_listing_expires_witness :
  (GetProductsPaginated sample_Unmarshal broken_pool 1 20 "" ""
     (11 + 5 * Minute + 1) (11 + 5 * Minute + 2)
     (GetProductsPaginated sample_Unmarshal sample_pool 1 20 "" "" 10 11 New).2).1
  = Error "error counting products: connection refused".
Proof.
  pose proof (stored_listing_expires sample_Unmarshal sample_pool broken_pool
                1 20 "" "" 10 11 (11 + 5 * Minute + 1) (11 + 5 * Minute + 2) New) as Hthm.
  cbn zeta in Hthm. erewrite Hthm.
  - reflexivity.
  - intros cached. vm_compute. discriminate.
  - reflexivity.
  - lia.
Defined.

(** X18: GetAllProducts passes the page size 1000, which is cut to 100: it
    returns the Data of page 1 of size 100, shares that page's cache
    entry, and on a miss depends on the pool only through the count query
    without a WHERE clause and the select query with LIMIT 100 OFFSET 0. *)
Theorem GetAllProducts_asks_for_hundred `{Externals}
    (json_Unmarshal : string → result (list ProductVariant))
    (pool pool' : Pool) (now_get now_set : Z)
    (c : Cache (PaginatedResult Product)) :
  QueryRow_count pool' (count_query "") [] = QueryRow_count pool (count_query "") [] →
  Query_rows pool' (select_query "" 1) [ArgInt 100; ArgInt 0]
  = Query_rows pool (select_query "" 1) [ArgInt 100; ArgInt 0] →
  GetAllProducts json_Unmarshal pool' now_get now_set c
  = GetAllProducts json_Unmarshal pool now_get now_set c
  ∧ GetAllProducts json_Unmarshal pool now_get now_set c
    = (match (GetProductsPaginated json_Unmarshal pool 1 100 "" ""
                now_get now_set c).1 with
       | Error err => Error err
       | Ok r => Ok (Data r)
       end,
       (GetProductsPaginated json_Unmarshal pool 1 100 "" "" now_get now_set c).2).
Proof.
  intros Hcount Hrows.
  assert (∀ p : Pool,
            query_page json_Unmarshal p 1 100 "" ""
            = match QueryRow_count p (count_query "") [] with
              | Error err => Error ("error counting products: " +:+ err)
              | Ok totalCount =>
                  match Query_rows p (select_query "" 1) [ArgInt 100; ArgInt 0] with
                  | Error err => Error ("error querying products: " +:+ err)
                  | Ok rows =>
                      match scan_rows json_Unmarshal (rows_next rows) [] with
                      | Error err => Error err
                      | Ok products =>
                          match rows_err rows with
                          | Some err => Error ("error iterating product rows: " +:+ err)
                          | None => Ok (page_result products totalCount 1 100)
                          end
                      end
                  end
              end) as Hpage by reflexivity.
  assert (query_page json_Unmarshal pool' 1 100 "" ""
          = query_page json_Unmarshal pool 1 100 "" "") as Hsame.
  { by rewrite !Hpage, Hcount, Hrows. }
  assert (∀ p : Pool,
            GetProductsPaginated json_Unmarshal p 1 1000 "" "" now_get now_set c
            = GetProductsPaginated json_Unmarshal p 1 100 "" "" now_get now_set c)
    as Hclamp by reflexivity.
  split.
  - unfold GetAllProducts. cbn zeta. rewrite !Hclamp.
    unfold GetProductsPaginated. cbn zeta.
    change (clamp_page 1) with 1. change (clamp_pageSize 100) with 100.
    by rewrite Hsame.
  - unfold GetAllProducts. cbn zeta. rewrite Hclamp.
    by destruct (GetProductsPaginated json_Unmarshal pool 1 100 "" ""
                   now_get now_set c).1.
Qed.

Lemma GetAllProducts_asks_for_hundred_witness :
  GetAllProducts sample_Unmarshal sample_pool 10 11 New
  = GetAllProducts sample_Unmarshal sample_pool 10 11 New
  ∧ (GetAllProducts sample_Unmarshal sample_pool 10 11 New).2
    = (GetProductsPaginated sample_Unmarshal sample_pool 1 100 "" "" 10 11 New).2.
Proof.
  destruct (GetAllProducts_asks_for_hundred sample_Unmarshal sample_pool
              sample_pool 10 11 New eq_refl eq_refl) as [H1 H2].
  split; [exact H1|]. by rewrite H2.
Defined.

(** X19: a listing call reads and writes the cache under its own key only:
    every other entry is after the call what it was before. *)
Theorem listing_touches_one_key `{Externals}
    (json_Unmarshal : string → result (list ProductVariant))
    (pool : Pool) (page pageSize : Z) (categoryID search : string)
    (now_get now_set : Z) (c : Cache (PaginatedResult Product)) (k : string) :
  k ≠ generateCacheKey (clamp_page page) (clamp_pageSize pageSize)
        categoryID search →
  items (GetProductsPaginated json_Unmarshal pool page pageSize
           categoryID search now_get now_set c).2 !! k
  = items c !! k.
Proof.
  intros Hne. unfold GetProductsPaginated. cbn zeta.
  set (key := generateCacheKey _ _ categoryID search) in *.
  assert (items (Get key now_get c).2 !! k = items c !! k) as Hget.
  { unfold Get. destruct (items c !! key) as [item|]; [|done].
    destruct (After now_get (Expiration item)); [|done].
    simpl. by apply lookup_delete_ne. }
  destruct (Get key now_get c).1 as [[|cached] [|]]; try done;
    destruct (query_page json_Unmarshal pool _ _ categoryID search);
    cbn [snd]; try done; by rewrite Set_lookup_ne.
Qed.

Lemma listing_touches_one_key_witness :
  items (GetProductsPaginated sample_Unmarshal sample_pool 1 20 "" "" 10 11 New).2
    !! "other" = None.
Proof.
  refine (eq_trans (listing_touches_one_key sample_Unmarshal sample_pool
                      1 20 "" "" 10 11 New "other" _) _).
  - vm_compute. discriminate.
  - reflexivity.
Defined.

(** ** What the cache key says about the query *)

Section KeyText.

Lemma append_cons (x : Ascii.ascii) (a b : string) :
  String x a +:+ b = String x (a +:+ b).
Proof. reflexivity. Qed.

Lemma length_append (a b : string) :
  String.length (a +:+ b) = (String.length a + String.length b)%nat.
Proof.
  induction a as [|x a IH]; [done|].
  rewrite append_cons. simpl. by rewrite IH.
Qed.

Lemma append_inv_tail (a a' t : string) : a +:+ t = a' +:+ t → a = a'.
Proof.
  revert a'. induction a as [|x a IH]; intros [|x' a'] Heq.
  - done.
  - apply (f_equal String.length) in Heq.
    rewrite append_cons in Heq. simpl in Heq.
    rewrite !length_append in Heq. simpl in Heq. lia.
  - apply (f_equal String.length) in Heq.
    rewrite append_cons in Heq. simpl in Heq.
    rewrite !length_append in Heq. simpl in Heq. lia.
  - rewrite !append_cons in Heq. injection Heq as -> Heq.
    f_equal. by apply IH.
Qed.

(** A text without a colon ends where the first colon stands. *)
Lemma split_at_colon (a a' r r' : string) :
  (∀ n, String.get n a ≠ Some colon) →
  (∀ n, String.get n a' ≠ Some colon) →
  a +:+ String colon r = a' +:+ String colon r' →
  a = a' ∧ r = r'.
Proof.
  revert a'. induction a as [|x a IH]; intros [|x' a'] Ha Ha' Heq.
  - injection Heq as ->. done.
  - rewrite append_cons in Heq. injection Heq as <- _.
    by destruct (Ha' 0%nat).
  - rewrite append_cons in Heq. injection Heq as -> _.
    by destruct (Ha 0%nat).
  - rewrite !append_cons in Heq. injection Heq as -> Heq.
    destruct (IH a') as [-> ->]; [| |done|done].
    + intros n. apply (Ha (S n)).
    + intros n. apply (Ha' (S n)).
Qed.

Lemma uint_no_colon (d : Decimal.uint) (n : nat) :
  String.get n (NilEmpty.string_of_uint d) ≠ Some colon.
Proof.
  revert n. induction d; intros [|n]; simpl; try done; apply IHd.
Qed.

Lemma itoa_no_colon (z : Z) (n : nat) : String.get n (itoa z) ≠ Some colon.
Proof.
  unfold itoa, NilZero.string_of_int, NilZero.string_of_uint.
  destruct (Z.to_int z) as [d|d].
  - destruct d; try apply uint_no_colon. by destruct n as [|[|n]].
  - destruct n as [|n]; [done|]. simpl.
    destruct d; try apply uint_no_colon. by destruct n as [|[|n]].
Qed.

Lemma to_int_not_nil (z : Z) :
  Z.to_int z ≠ Decimal.Pos Decimal.Nil ∧ Z.to_int z ≠ Decimal.Neg Decimal.Nil.
Proof.
  rewrite <- (DecimalZ.of_to z), DecimalZ.to_of.
  generalize (Z.to_int z). intros [d|d]; unfold Decimal.norm, Decimal.unorm;
    destruct (Decimal.nzhead d); done.
Qed.

Lemma itoa_inj (z z' : Z) : itoa z = itoa z' → z = z'.
Proof.
  unfold itoa. intros Heq. apply DecimalZ.to_int_inj.
  destruct (to_int_not_nil z) as [Hp Hn].
  destruct (to_int_not_nil z') as [Hp' Hn'].
  pose proof (NilZero.isi _ Hp Hn) as Hz.
  pose proof (NilZero.isi _ Hp' Hn') as Hz'.
  rewrite Heq in Hz. congruence.
Qed.

End KeyText.

(** X20: with an empty search text, which is what every caller in the
    repository passes, the text that is hashed into the cache key
    determines the page, the page size and the category: two listings can
    then share a key only if md5 collides. *)
Theorem cache_key_text_unambiguous (page pageSize page' pageSize' : Z)
    (categoryID categoryID' : string) :
  cache_key_text page pageSize categoryID ""
  = cache_key_text page' pageSize' categoryID' "" →
  page = page' ∧ pageSize = pageSize' ∧ categoryID = categoryID'.
Proof.
  unfold cache_key_text. intros Heq.
  apply (String.app_inj "products:page=") in Heq.
  change (":size=" +:+ ?x) with (String colon ("size=" +:+ x)) in Heq.
  apply split_at_colon in Heq as [Hp Heq]; try apply itoa_no_colon.
  apply (String.app_inj "size=") in Heq.
  change (":cat=" +:+ ?x) with (String colon ("cat=" +:+ x)) in Heq.
  apply split_at_colon in Heq as [Hs Heq]; try apply itoa_no_colon.
  apply (String.app_inj "cat=") in Heq.
  apply append_inv_tail in Heq.
  split; [by apply itoa_inj|]. split; [by apply itoa_inj | done].
Qed.

Lemma cache_key_text_unambiguous_witness :
  (1 : Z) = 1 ∧ (20 : Z) = 20 ∧ "c1" = "c1".
Proof.
  apply (cache_key_text_unambiguous 1 20 1 20 "c1" "c1"). reflexivity.
Defined.
